(** * char2fonts: which fonts contain a character

    A shallow embedding of [char2fonts.py] and the properties of its
    three core routines: the coverage resolver [char_in_font], the name
    extractor [get_font_name] and the memoised loader [load_font], with
    the driver [find_fonts_for_char] / [main] around them.

    Python values are modelled as follows.
    - [str] is a sequence of code points: [pystr := list Z].
    - An exception that is caught by [except Exception] is a value of
      [exn]; a call that may raise returns a [result].
    - [sys.exit] is not an [Exception]; only the stateful monad [M] of
      the driver has an outcome for it.
    - A [TTFont] object is a pair of an identity and its tables, so that
      "the same object" can be told from "an equal object". *)

From Stdlib Require Import ZArith List String Ascii Lia DecimalString.
From stdpp Require Import base decidable option list gmap sets strings.

Local Open Scope Z_scope.

(** ** Python strings, exceptions, results *)

Definition pystr := list Z.

(** An ASCII literal of the source as a Python [str]. *)
Definition py (s : string) : pystr :=
  (λ a, Z.of_N (N_of_ascii a)) <$> list_ascii_of_string s.

(** Subclasses of [Exception] that the calls of the program can raise. *)
Inductive exn :=
  | TypeError
  | ValueError
  | UnicodeDecodeError
  | UnicodeEncodeError
  | OSError
  | TTLibError.

Inductive result (A : Type) :=
  | Ok (a : A)
  | Raise (e : exn).
Arguments Ok {A} a.
Arguments Raise {A} e.

#[global] Instance result_ret : MRet result := @Ok.
#[global] Instance result_bind : MBind result := λ A B f r,
  match r with
  | Ok a => f a
  | Raise e => Raise e
  end.

(** [try: body  except Exception: handler]. *)
Definition try_except {A} (body : result A) (handler : exn → result A) : result A :=
  match body with
  | Ok a => Ok a
  | Raise e => handler e
  end.

(** [ord(s)]: the code point of a string of length one, [TypeError]
    for any other length. *)
Definition ord (s : pystr) : result Z :=
  match s with
  | [c] => Ok c
  | _ => Raise TypeError
  end.

(** ** The font data that the program reads through fontTools *)

(** Modelled from the spec: a character-mapping table of fontTools (the
    class is not part of this repository), with its platform and
    encoding identifiers and its mapping from code point to glyph
    identifier. *)
Module CmapSubtable.
Record t := mk {
  platformID : Z;
  platEncID : Z;
  cmap : gmap Z Z
}.
End CmapSubtable.

(** Modelled from the spec: a naming record of fontTools (the class is
    not part of this repository); [string] holds the raw bytes of the
    record's text. *)
Module NameRecord.
Record t := mk {
  nameID : Z;
  platformID : Z;
  platEncID : Z;
  string : list Z
}.
End NameRecord.

(** Modelled from the spec: the tables of a loaded font, as the data
    that fontTools hands out once a table is decompiled. [None] is a
    table that the font does not have (["cmap" not in font]);
    [table_cmap] is [font["cmap"].tables] and [table_name] is
    [font["name"].names]. *)
Record TTFont := mkTTFont {
  table_cmap : option (list CmapSubtable.t);
  table_name : option (list NameRecord.t)
}.

(** The library calls of the program whose code is outside the
    repository, taken as an interface: [cmap.isUnicode()],
    [record.toUnicode()] of fontTools and the character names behind
    [unicodedata.name]. *)
Class FontLib := {
  isUnicode : CmapSubtable.t → bool;
  toUnicode : NameRecord.t → result pystr;
  unicode_names : Z → option pystr
}.

(** fontTools' own [isUnicode]: platform 0, or platform 3 with encoding
    0, 1 or 10. *)
Definition fontTools_isUnicode (cm : CmapSubtable.t) : bool :=
  (CmapSubtable.platformID cm =? 0)
  || ((CmapSubtable.platformID cm =? 3)
      && ((CmapSubtable.platEncID cm =? 0)
          || (CmapSubtable.platEncID cm =? 1)
          || (CmapSubtable.platEncID cm =? 10))).

(** [record.toUnicode()] for a record of the Windows platform with the
    Unicode BMP encoding, as fontTools has it: a name with an odd number
    of bytes is repaired, the bytes are decoded as UTF-16BE, strictly,
    and a name that was encoded twice is narrowed. *)
Definition isascii (b : Z) : bool :=
  ((0x20 <=? b) && (b <=? 0x7E)) || (b =? 0x09) || (b =? 0x0A) || (b =? 0x0D).

(** Every byte at an odd index is zero and every byte at an even index
    is ASCII text. *)
Fixpoint zero_at_odd (even : bool) (bs : list Z) : bool :=
  match bs with
  | [] => true
  | b :: rest =>
      (if even then isascii b else b =? 0) && zero_at_odd (negb even) rest
  end.

Definition repair_odd (bs : list Z) : list Z :=
  if Nat.even (length bs) then bs
  else
    match last bs with
    | Some 0 => removelast bs
    | _ =>
        if zero_at_odd true bs then 0 :: bs
        else
          match bs with
          | 0 :: rest =>
              if forallb isascii rest then rest ≫= (λ b, [0; b]) else bs
          | _ => bs
          end
    end.

Fixpoint decode_utf_16_be (bs : list Z) : result pystr :=
  match bs with
  | [] => Ok []
  | hi :: lo :: rest =>
      let u := hi * 256 + lo in
      if (0xD800 <=? u) && (u <=? 0xDBFF) then
        match rest with
        | hi2 :: lo2 :: rest2 =>
            let u2 := hi2 * 256 + lo2 in
            if (0xDC00 <=? u2) && (u2 <=? 0xDFFF) then
              rest' ← decode_utf_16_be rest2;
              Ok (0x10000 + (u - 0xD800) * 1024 + (u2 - 0xDC00) :: rest')
            else Raise UnicodeDecodeError
        | _ => Raise UnicodeDecodeError
        end
      else if (0xDC00 <=? u) && (u <=? 0xDFFF) then Raise UnicodeDecodeError
      else rest' ← decode_utf_16_be rest; Ok (u :: rest')
  | [_] => Raise UnicodeDecodeError
  end.

(** Every character at an even index is U+0000 and every character at
    an odd index is ASCII text: the text was encoded twice. *)
Fixpoint zero_at_even (even : bool) (s : pystr) : bool :=
  match s with
  | [] => true
  | c :: rest =>
      (if even then c =? 0 else isascii c) && zero_at_even (negb even) rest
  end.

Fixpoint odd_indices (even : bool) (s : pystr) : pystr :=
  match s with
  | [] => []
  | c :: rest =>
      if even then odd_indices false rest else c :: odd_indices true rest
  end.

Definition toUnicode_utf_16_be (bs : list Z) : result pystr :=
  text ← decode_utf_16_be (repair_odd bs);
  Ok (if zero_at_even true text then odd_indices true text else text).

(** The names of the characters that the examples use; U+E000, a
    private use character, has none. *)
Definition sample_names (c : Z) : option pystr :=
  if c =? 0x41 then Some (py "LATIN CAPITAL LETTER A")
  else if c =? 0x42 then Some (py "LATIN CAPITAL LETTER B")
  else if c =? 0x20AC then Some (py "EURO SIGN")
  else None.

(** A concrete library, to run the program on concrete fonts. The
    program decodes records of platform 3 with encoding 1 only, whose
    bytes fontTools takes as UTF-16BE. *)
#[global] Instance sample_lib : FontLib := {|
  isUnicode := fontTools_isUnicode;
  toUnicode := λ r, toUnicode_utf_16_be (NameRecord.string r);
  unicode_names := sample_names
|}.

(** ** The process state and its monad *)

(** What [TTFont(path)] hands out. fontTools decompiles a table when
    the program first asks for it: [Sound font] is a font whose tables
    decompile, to [font]; [Damaged e font] is a font with a cmap table
    whose decompilation raises [e], and [font] holds its other
    tables. *)
Inductive loaded_font :=
  | Sound (font : TTFont)
  | Damaged (e : exn) (font : TTFont).

(** The tables of a font object that decompile. *)
Definition tables_of (f : loaded_font) : TTFont :=
  match f with
  | Sound font => font
  | Damaged _ font => font
  end.

(** A [TTFont] object: its identity and its font. *)
Record obj := mkObj {
  oid : nat;
  val : loaded_font
}.

(** What is outside the process: the [*.ttf] paths under a directory,
    the outcome of [TTFont(path)] for each path, and the code points
    other than ASCII that the encoding of stdout has. *)
Record world := mkWorld {
  rglob_ttf : pystr → list pystr;
  TTFont_open : pystr → result loaded_font;
  stdout_encodes : Z → bool
}.

(** The state of a run: the entries of [load_font]'s cache, most
    recently used first; the paths handed to [TTFont], in order; the
    number of objects made so far; the texts printed; the directories
    walked. *)
Record state := mkState {
  cache : list (pystr * option obj);
  reads : list pystr;
  next_id : nat;
  stdout : list pystr;
  walked : list pystr
}.

Definition init_state : state := mkState [] [] 0 [] [].

Definition set_cache (c : list (pystr * option obj)) (st : state) : state :=
  mkState c (reads st) (next_id st) (stdout st) (walked st).

Inductive outcome (A : Type) :=
  | Return (a : A)
  | Raised (e : exn)
  | SystemExit (code : Z).
Arguments Return {A} a.
Arguments Raised {A} e.
Arguments SystemExit {A} code.

Definition M (A : Type) : Type := state → outcome A * state.

#[global] Instance M_ret : MRet M := λ A a st, (Return a, st).
#[global] Instance M_bind : MBind M := λ A B f m st,
  match m st with
  | (Return a, st') => f a st'
  | (Raised e, st') => (Raised e, st')
  | (SystemExit code, st') => (SystemExit code, st')
  end.

Definition lift {A} (r : result A) : M A := λ st,
  match r with
  | Ok a => (Return a, st)
  | Raise e => (Raised e, st)
  end.

(** [try: body  except Exception: handler] in [M]; [SystemExit] is not
    an [Exception] and passes through. *)
Definition try_except_M {A} (body : M A) (handler : exn → M A) : M A := λ st,
  match body st with
  | (Raised e, st') => handler e st'
  | r => r
  end.

(** Whether stdout can encode a text. *)
Definition encodable (w : world) (text : pystr) : bool :=
  forallb (λ c, ((0 <=? c) && (c <? 128)) || stdout_encodes w c) text.

(** [print(text)] to a stdout that is open: a text that stdout cannot
    encode raises [UnicodeEncodeError], and nothing of it is written. *)
Definition print (w : world) (text : pystr) : M unit := λ st,
  if encodable w text then
    (Return tt,
     mkState (cache st) (reads st) (next_id st) (stdout st ++ [text]) (walked st))
  else (Raised UnicodeEncodeError, st).

Definition sys_exit (code : Z) : M unit := λ st, (SystemExit code, st).

(** [TTFont(fontpath)]: the file is read; a parse that succeeds makes a
    new object. *)
Definition TTFont_new (w : world) (fontpath : pystr) : M obj := λ st,
  match TTFont_open w fontpath with
  | Ok f =>
      (Return (mkObj (next_id st) f),
       mkState (cache st) (reads st ++ [fontpath]) (S (next_id st))
         (stdout st) (walked st))
  | Raise e =>
      (Raised e,
       mkState (cache st) (reads st ++ [fontpath]) (next_id st)
         (stdout st) (walked st))
  end.

Definition discover_fonts (w : world) (font_dir : pystr) : M (list pystr) := λ st,
  (Return (rglob_ttf w font_dir),
   mkState (cache st) (reads st) (next_id st) (stdout st) (walked st ++ [font_dir])).

(** ** Font loader *)

Definition maxsize : nat := 512.

Fixpoint cache_get (key : pystr) (c : list (pystr * option obj))
  : option (option obj) :=
  match c with
  | [] => None
  | (k, v) :: rest => if decide (k = key) then Some v else cache_get key rest
  end.

(** A hit moves the entry to the most recently used end. *)
Definition cache_touch (key : pystr) (v : option obj) (c : list (pystr * option obj))
  : list (pystr * option obj) :=
  (key, v) :: filter (λ kv, kv.1 ≠ key) c.

(** A new entry; when the cache is full the least recently used entry
    makes room for it. *)
Definition cache_put (key : pystr) (v : option obj) (c : list (pystr * option obj))
  : list (pystr * option obj) :=
  (key, v) :: (if decide (maxsize ≤ length c)%nat then removelast c else c).

(** [functools.lru_cache(maxsize=512)] around a function of one string
    argument. *)
Definition lru_cache (user_function : pystr → M (option obj)) (key : pystr)
  : M (option obj) := λ st,
  match cache_get key (cache st) with
  | Some v => (Return v, set_cache (cache_touch key v (cache st)) st)
  | None =>
      match user_function key st with
      | (Return v, st') =>
          match cache_get key (cache st') with
          | Some _ => (Return v, st')
          | None => (Return v, set_cache (cache_put key v (cache st')) st')
          end
      | r => r
      end
  end.

(** The body of [load_font], without its decorator. *)
Definition load_font_body (w : world) (fontpath : pystr) : M (option obj) :=
  try_except_M (font ← TTFont_new w fontpath; mret (Some font)) (λ _, mret None).

Definition load_font (w : world) : pystr → M (option obj) :=
  lru_cache (load_font_body w).

(** A run of calls [load_font(p)], each against the files as they are
    at that moment. *)
Fixpoint loads (calls : list (world * pystr)) (st : state) : state :=
  match calls with
  | [] => st
  | (w, p) :: rest => loads rest (load_font w p st).2
  end.

Section char2fonts.
Context `{FontLib}.

(** ** Coverage resolver *)

(** [key in d] for a dict. *)
Definition dict_in (key : Z) (d : gmap Z Z) : bool :=
  match d !! key with
  | Some _ => true
  | None => false
  end.

(** The loop [for cmap in font["cmap"].tables] of [char_in_font]. *)
Fixpoint char_in_font_loop (unicode_char : pystr) (tables : list CmapSubtable.t)
  : result bool :=
  match tables with
  | [] => Ok false
  | cmap :: rest =>
      if isUnicode cmap then
        c ← ord unicode_char;
        if dict_in c (CmapSubtable.cmap cmap) then Ok true
        else char_in_font_loop unicode_char rest
      else char_in_font_loop unicode_char rest
  end.

Definition char_in_font (unicode_char : pystr) (font : TTFont) : result bool :=
  match table_cmap font with
  | None => Ok false
  | Some tables => char_in_font_loop unicode_char tables
  end.

(** [char_in_font(unicode_char, font)] on a font object: a font
    without a cmap table gives [False] at once; otherwise [font["cmap"]]
    decompiles the table, which raises when the table is damaged. *)
Definition char_in_font_object (unicode_char : pystr) (f : loaded_font)
  : result bool :=
  match f with
  | Sound font => char_in_font unicode_char font
  | Damaged e _ => Raise e
  end.

(** ** Name extractor *)

Definition unknown_font : pystr := py "Unknown font".

(** [record.nameID in (1, 4) and record.platformID == 3 and
    record.platEncID == 1]. *)
Definition name_record_selected (record : NameRecord.t) : bool :=
  ((NameRecord.nameID record =? 1) || (NameRecord.nameID record =? 4))
  && (NameRecord.platformID record =? 3)
  && (NameRecord.platEncID record =? 1).

(** The loop [for record in font["name"].names], followed by the
    [return "Unknown font"] after it. *)
Fixpoint get_font_name_loop (names : list NameRecord.t) : result pystr :=
  match names with
  | [] => Ok unknown_font
  | record :: rest =>
      if name_record_selected record then toUnicode record
      else get_font_name_loop rest
  end.

Definition get_font_name (font : TTFont) : result pystr :=
  try_except
    (match table_name font with
     | Some names => get_font_name_loop names
     | None => Ok unknown_font
     end)
    (λ _, Ok unknown_font).

(** [get_font_name(font)] on a font object: it reads the name table
    only. *)
Definition get_font_name_object (f : loaded_font) : result pystr :=
  get_font_name (tables_of f).

(** ** Character description *)

(** [unicodedata.name(char)]: [TypeError] unless [char] is one
    character, [ValueError] when the character has no name. *)
Definition unicodedata_name (char : pystr) : result pystr :=
  match char with
  | [c] =>
      match unicode_names c with
      | Some name => Ok name
      | None => Raise ValueError
      end
  | _ => Raise TypeError
  end.

Definition hex_digit (d : Z) : Z :=
  if d <? 10 then 48 + d else 55 + d.

Fixpoint hex_digits (fuel : nat) (n : Z) (acc : pystr) : pystr :=
  match fuel with
  | O => acc
  | S fuel' =>
      let acc' := hex_digit (n mod 16) :: acc in
      if n / 16 =? 0 then acc' else hex_digits fuel' (n / 16) acc'
  end.

(** The format [:04X] of a code point (never negative): upper-case
    hexadecimal digits, padded with zeros to four. *)
Definition format_04X (n : Z) : pystr :=
  let ds := hex_digits (S (Z.to_nat (Z.log2 n))) n [] in
  replicate (4 - length ds) 48 ++ ds.

Definition get_char_description (char : pystr) : result pystr :=
  match
    (name ← unicodedata_name char;
     c ← ord char;
     Ok (char ++ py " (U+" ++ format_04X c ++ py " " ++ name ++ py ")"))
  with
  | Raise ValueError =>
      c ← ord char;
      Ok (char ++ py " (U+" ++ format_04X c ++ py ")")
  | r => r
  end.

(** ** Driver *)

(** The loop [for fontpath in font_paths] of [find_fonts_for_char];
    [found] is the variable of that name. In [if font and ...] a font
    object counts as true and [None] as false, and [char_in_font] is
    called for an object only. Nothing in the loop catches an
    exception: what [char_in_font] or [print] raises ends the scan. *)
Fixpoint find_fonts_loop (w : world) (char : pystr) (font_paths : list pystr)
  (found : bool) : M bool :=
  match font_paths with
  | [] => mret found
  | fontpath :: rest =>
      font ← load_font w fontpath;
      match font with
      | None => find_fonts_loop w char rest found
      | Some f =>
          hit ← lift (char_in_font_object char (val f));
          if hit : bool then
            font_name ← lift (get_font_name_object (val f));
            print w (py "  " ++ font_name ++ [32; 0x2192; 32] ++ fontpath);;
            find_fonts_loop w char rest true
          else find_fonts_loop w char rest found
      end
  end.

Definition find_fonts_for_char (w : world) (char : pystr) (font_paths : list pystr)
  : M unit :=
  description ← lift (get_char_description char);
  print w ([10] ++ py "Searching for: " ++ description);;
  print w (replicate 70 45);;
  found ← find_fonts_loop w char font_paths false;
  if found : bool then mret tt
  else print w (py "  No fonts found containing this character.").

Fixpoint main_loop (w : world) (chars : list pystr) (font_paths : list pystr)
  : M unit :=
  match chars with
  | [] => mret tt
  | char :: rest =>
      find_fonts_for_char w char font_paths;;
      main_loop w rest font_paths
  end.

Definition usage : list pystr :=
  [py "Usage: python char2font.py <character> [<character> ...]";
   py "Find which fonts contain specific Unicode characters."].

Definition default_font_dir : pystr := py "/usr/share/fonts/".

Definition decimal (n : nat) : pystr :=
  py (NilZero.string_of_uint (Nat.to_uint n)).

(** [argv] is [sys.argv], the program's own name first. *)
Definition main (w : world) (argv : list pystr) : M unit :=
  match drop 1 argv with
  | [] =>
      print w (py "Usage: python char2font.py <character> [<character> ...]");;
      print w (py "Find which fonts contain specific Unicode characters.");;
      sys_exit 1
  | chars =>
      print w (py "Discovering fonts...");;
      font_paths ← discover_fonts w default_font_dir;
      print w (py "Found " ++ decimal (length font_paths) ++ py " fonts." ++ [10]);;
      main_loop w chars font_paths
  end.

End char2fonts.

(** ** Properties stated in the words of the specification *)

Section properties.
Context `{FontLib}.

(** Some Unicode-capable table of the font has an entry for the code
    point. *)
Definition has_entry (font : TTFont) (c : Z) : Prop :=
  ∃ tables cm,
    table_cmap font = Some tables ∧ cm ∈ tables ∧ isUnicode cm = true
    ∧ is_Some (CmapSubtable.cmap cm !! c).

(** Some Unicode-capable table of the font maps the code point to a
    glyph identifier other than zero. *)
Definition maps_to_glyph (font : TTFont) (c : Z) : Prop :=
  ∃ tables cm g,
    table_cmap font = Some tables ∧ cm ∈ tables ∧ isUnicode cm = true
    ∧ CmapSubtable.cmap cm !! c = Some g ∧ g ≠ 0.

(** fontTools leaves out of a decompiled table the code points that
    the file maps to glyph 0, the missing glyph: the tables of a font
    read from a file hold no entry for glyph 0. *)
Definition no_glyph_zero (font : TTFont) : Prop :=
  ∀ tables cm c,
    table_cmap font = Some tables → cm ∈ tables →
    CmapSubtable.cmap cm !! c ≠ Some 0.

End properties.

(** A Unicode scalar value: a code point that is not a surrogate. *)
Definition is_scalar (c : Z) : Prop :=
  0 ≤ c ≤ 0x10FFFF ∧ ¬ (0xD800 ≤ c ≤ 0xDFFF).

(** A family (1) or full (4) name, Windows platform (3), Unicode BMP
    encoding (1). *)
Definition family_or_full_windows_bmp (r : NameRecord.t) : Prop :=
  (NameRecord.nameID r = 1 ∨ NameRecord.nameID r = 4)
  ∧ NameRecord.platformID r = 3 ∧ NameRecord.platEncID r = 1.

(** The cache as the decorator keeps it: one entry per key, at most
    [maxsize] entries. *)
Definition cache_wf (st : state) : Prop :=
  NoDup (cache st).*1 ∧ (length (cache st) ≤ maxsize)%nat.

(** The later call [load_font(p)], after the calls [calls] that follow
    a first state [st1], gives the failure without handing the path to
    [TTFont] again. *)
Definition failure_kept (st1 : state) (calls : list (world * pystr))
  (w' : world) (p : pystr) : Prop :=
  let st2 := loads calls st1 in
  (load_font w' p st2).1 = Return None
  ∧ reads (load_font w' p st2).2 = reads st2.

(** The paths other than [p] among the calls. *)
Definition other_paths (p : pystr) (calls : list (world * pystr)) : gset pystr :=
  list_to_set (calls.*2) ∖ {[p]}.

(** The failure cached for [p] is still there, and every entry used
    more recently than it belongs to a path of [D]. *)
Definition failure_cached (p : pystr) (D : gset pystr) (st : state) : Prop :=
  cache_wf st
  ∧ ∃ pre post,
      cache st = pre ++ (p, None) :: post
      ∧ (p ∉ pre.*1)
      ∧ (∀ k, k ∈ pre.*1 → k ∈ D).

(** ** Sample fonts and files *)

(** Scenario A of the specification: a Unicode table that maps U+0041
    to glyph 5. *)
Definition font_A : TTFont :=
  mkTTFont
    (Some [CmapSubtable.mk 3 1 {[ 0x41 := 5 ]}])
    (Some [NameRecord.mk 2 3 1 [0; 0x52];
           NameRecord.mk 1 1 0 [0x46; 0x6F; 0x6F];
           NameRecord.mk 4 3 1 [0; 0x46; 0; 0x6F; 0; 0x6F];
           NameRecord.mk 1 3 1 [0; 0x42]]).

(** A font whose Unicode table has an entry for U+0000, as fonts with a
    [.null] glyph do. *)
Definition font_null : TTFont :=
  mkTTFont (Some [CmapSubtable.mk 3 1 {[ 0 := 1; 0x41 := 5 ]}]) None.

(** A font whose Unicode table has an entry for the surrogate U+D800. *)
Definition font_surrogate : TTFont :=
  mkTTFont (Some [CmapSubtable.mk 0 4 {[ 0xD800 := 3 ]}]) None.

(** A font with a name table and no character-mapping table, and one
    whose character-mapping table has no sub-table. *)
Definition font_no_cmap : TTFont := mkTTFont None (Some []).
Definition font_empty_cmap : TTFont := mkTTFont (Some []) None.

(** A font with a legacy table and a Unicode table. *)
Definition font_two : TTFont :=
  mkTTFont
    (Some [CmapSubtable.mk 1 0 {[ 0x41 := 36 ]};
           CmapSubtable.mk 0 3 {[ 0x41 := 36; 0x20AC := 7 ]}])
    None.

(** A font whose selected name record is a lone surrogate, which is
    not UTF-16. *)
Definition font_bad_name : TTFont :=
  mkTTFont None (Some [NameRecord.mk 4 3 1 [0xD8; 0x00];
                       NameRecord.mk 1 3 1 [0; 0x42]]).

(** A stdout in UTF-8: it encodes the Unicode scalar values. *)
Definition utf_8_encodes (c : Z) : bool :=
  (0 <=? c) && (c <=? 0x10FFFF) && negb ((0xD800 <=? c) && (c <=? 0xDFFF)).

(** Files: [/a.ttf] parses as [font_A], every other path fails. *)
Definition world_A : world :=
  mkWorld
    (λ _, [py "/a.ttf"; py "/b.ttf"])
    (λ p, if decide (p = py "/a.ttf") then Ok (Sound font_A) else Raise TTLibError)
    utf_8_encodes.

(** Files: [/c.ttf] opens, but its cmap table does not decompile;
    [/a.ttf] parses as [font_A]. *)
Definition world_C : world :=
  mkWorld
    (λ _, [py "/c.ttf"; py "/a.ttf"])
    (λ p, if decide (p = py "/c.ttf") then Ok (Damaged TTLibError font_no_cmap)
          else if decide (p = py "/a.ttf") then Ok (Sound font_A)
          else Raise TTLibError)
    utf_8_encodes.

(** Files of which none parses. *)
Definition world_bad : world :=
  mkWorld (λ _, []) (λ _, Raise OSError) utf_8_encodes.

(** A font directory with 513 font files, none of which parses. *)
Definition world_many : world :=
  mkWorld
    (λ _, (λ n, py "/f/" ++ [Z.of_nat n]) <$> seq 0 513)
    (λ _, Raise TTLibError)
    utf_8_encodes.

(** [maxsize] distinct paths. *)
Definition path_n (n : nat) : pystr := py "/f/" ++ [Z.of_nat n].
Definition many_calls : list (world * pystr) :=
  (λ n, (world_bad, path_n n)) <$> seq 0 maxsize.

(** ** Further notions, for the properties of the rest of the program *)

Section notions.
Context `{FontLib}.

(** The font without its tables that are not Unicode-capable. *)
Definition unicode_tables_only (font : TTFont) : TTFont :=
  mkTTFont (filter (λ cm, isUnicode cm = true) <$> table_cmap font)
    (table_name font).

(** The font has a Unicode-capable table. *)
Definition has_unicode_table (font : TTFont) : Prop :=
  ∃ tables cm,
    table_cmap font = Some tables ∧ cm ∈ tables ∧ isUnicode cm = true.

(** The description of the character with code point [c]: the
    character, its code point in hexadecimal and, when it has one, its
    name. *)
Definition char_description (c : Z) : pystr :=
  [c] ++ py " (U+" ++ format_04X c
  ++ match unicode_names c with
     | Some name => py " " ++ name
     | None => []
     end
  ++ py ")".

End notions.

(** What the file at a path parses to, if it parses. *)
Definition parsed (w : world) (p : pystr) : option loaded_font :=
  match TTFont_open w p with
  | Ok font => Some font
  | Raise _ => None
  end.

(** Every entry of the cache holds what the file at its path parses
    to, with the files as they are in [w]. *)
Definition cache_agrees (w : world) (st : state) : Prop :=
  ∀ p v, (p, v) ∈ cache st → val <$> v = parsed w p.

(** The cache holds [v] for [p], and every entry used more recently
    belongs to a path of [D]. *)
Definition entry_cached (p : pystr) (v : option obj) (D : gset pystr)
  (st : state) : Prop :=
  cache_wf st
  ∧ ∃ pre post,
      cache st = pre ++ (p, v) :: post
      ∧ (p ∉ pre.*1)
      ∧ (∀ k, k ∈ pre.*1 → k ∈ D).

(** The calls [load_font(p)] of one scan of the font paths. *)
Definition scan_calls (w : world) (font_paths : list pystr)
  : list (world * pystr) :=
  (λ p, (w, p)) <$> font_paths.

(** The part of the state that [load_font] reads and writes. *)
Definition loader_view (st : state)
  : list (pystr * option obj) * list pystr * nat :=
  (cache st, reads st, next_id st).

Section report.
Context `{FontLib}.

(** The file at [p] parses to a font with a Unicode-capable table that
    has an entry for [c]. *)
Definition covers (w : world) (c : Z) (p : pystr) : bool :=
  match parsed w p with
  | Some (Sound font) =>
      match table_cmap font with
      | Some tables =>
          existsb (λ cm, isUnicode cm && dict_in c (CmapSubtable.cmap cm)) tables
      | None => false
      end
  | _ => false
  end.

(** The name of the font in the file at [p]. *)
Definition display_name (w : world) (p : pystr) : pystr :=
  match parsed w p with
  | Some f =>
      match get_font_name_object f with
      | Ok name => name
      | Raise _ => unknown_font
      end
  | None => unknown_font
  end.

(** The line printed for a font that has the character. *)
Definition result_line (w : world) (p : pystr) : pystr :=
  py "  " ++ display_name w p ++ [32; 0x2192; 32] ++ p.

(** What a query for the character [c] prints: the heading, a rule,
    and one line for each path whose font has the character, in the
    order of the paths, or a line that says there is none. *)
Definition report (w : world) (c : Z) (font_paths : list pystr) : list pystr :=
  [[10] ++ py "Searching for: " ++ char_description c; replicate 70 45]
  ++ match result_line w <$> filter (λ p, covers w c p = true) font_paths with
     | [] => [py "  No fonts found containing this character."]
     | lines => lines
     end.

(** Every line of the report is one that stdout can encode. *)
Definition report_encodable (w : world) (c : Z) (font_paths : list pystr) : Prop :=
  Forall (λ text, encodable w text = true) (report w c font_paths).

End report.

(** A text of ASCII characters. *)
Definition ascii_text (text : pystr) : bool :=
  forallb (λ c, (0 <=? c) && (c <? 128)) text.

(** None of the files at these paths is a font whose cmap table does
    not decompile. *)
Definition cmaps_decompile (w : world) (font_paths : list pystr) : Prop :=
  ∀ p e font, p ∈ font_paths → parsed w p ≠ Some (Damaged e font).

(** The font paths that [main] discovers, the two lines it prints
    around the discovery, and the state after them. *)
Definition discovered (w : world) : list pystr :=
  rglob_ttf w default_font_dir.

Definition discovery_lines (w : world) : list pystr :=
  [py "Discovering fonts...";
   py "Found " ++ decimal (length (discovered w)) ++ py " fonts." ++ [10]].

Definition after_discovery (w : world) (st : state) : state :=
  mkState (cache st) (reads st) (next_id st)
    (stdout st ++ discovery_lines w) (walked st ++ [default_font_dir]).

(** The arguments that are one character each, and the calls
    [load_font(p)] of the queries for them. *)
Definition chars_of (cs : list Z) : list pystr := (λ c, [c]) <$> cs.

Definition query_calls (w : world) (cs : list Z) (font_paths : list pystr)
  : list (world * pystr) :=
  concat ((λ _, scan_calls w font_paths) <$> cs).

(** The keys of the entries used more recently than the entry of
    [p]. *)
Fixpoint keys_before (p : pystr) (c : list (pystr * option obj)) : list pystr :=
  match c with
  | [] => []
  | (k, _) :: rest => if decide (k = p) then [] else k :: keys_before p rest
  end.

(** If [p] still has an entry, every path of [D] has one that was used
    more recently. *)
Definition all_before (p : pystr) (D : gset pystr) (st : state) : Prop :=
  cache_wf st
  ∧ (p ∈ (cache st).*1 → ∀ k, k ∈ D → k ∈ keys_before p (cache st)).

(** A scan of the paths from this state finds none of them cached at
    the moment it asks for it. *)
Definition scan_misses (w : world) (font_paths : list pystr) (st : state) : Prop :=
  cache_wf st
  ∧ ∀ l1 p l2,
      font_paths = l1 ++ p :: l2 →
      cache_get p (cache (loads (scan_calls w l1) st)) = None.

(** The value of a digit of [format_04X] and of a string of them. *)
Definition hex_digit_value (d : Z) : Z :=
  if d <? 58 then d - 48 else d - 55.

Definition hex_value (s : pystr) : Z :=
  foldl (λ acc d, acc * 16 + hex_digit_value d) 0 s.

(** A digit [0]-[9] or [A]-[F]. *)
Definition is_upper_hex (d : Z) : Prop :=
  48 ≤ d ≤ 57 ∨ 65 ≤ d ≤ 70.

(** * Coverage resolver *)

Section coverage.
Context `{FontLib}.

Lemma dict_in_is_Some c d : dict_in c d = true ↔ is_Some (d !! c).
Proof.
  unfold dict_in. destruct (d !! c) as [g|]; split; intros Hx; try done.
Qed.

(** On a single character the loop is an existence test over the
    tables. *)
Lemma char_in_font_loop_char c tables :
  char_in_font_loop [c] tables
  = Ok (existsb (λ cm, isUnicode cm && dict_in c (CmapSubtable.cmap cm)) tables).
Proof.
  induction tables as [|cm rest IH]; simpl; [done|].
  destruct (isUnicode cm); simpl; [|done].
  by destruct (dict_in c (CmapSubtable.cmap cm)).
Qed.

(** On any other string the loop stops at the first Unicode-capable
    table, where [ord] raises. *)
Lemma char_in_font_loop_not_char s tables :
  length s ≠ 1%nat →
  char_in_font_loop s tables
  = if existsb isUnicode tables then Raise TypeError else Ok false.
Proof.
  intros Hs. induction tables as [|cm rest IH]; simpl; [done|].
  destruct (isUnicode cm); simpl; [|done].
  destruct s as [|c [|c' s']]; simpl in *; done.
Qed.

Lemma existsb_Permutation {A} (f : A → bool) (l k : list A) :
  l ≡ₚ k → existsb f l = existsb f k.
Proof.
  induction 1 as [|x l k _ IH|x y l|l k m _ IH1 _ IH2]; simpl.
  - done.
  - by rewrite IH.
  - by destruct (f x), (f y).
  - by rewrite IH1.
Qed.

Lemma existsb_entry font c tables :
  table_cmap font = Some tables →
  existsb (λ cm, isUnicode cm && dict_in c (CmapSubtable.cmap cm)) tables = true
  ↔ has_entry font c.
Proof.
  intros Ht. rewrite existsb_exists. split.
  - intros (cm & Hin & Hb). apply andb_true_iff in Hb as [Hu Hd].
    exists tables, cm. split_and!; try done.
    + by apply list_elem_of_In.
    + by apply dict_in_is_Some.
  - intros (tables' & cm & Ht' & Hin & Hu & Hd).
    assert (tables' = tables) as -> by congruence.
    exists cm. split; [by apply list_elem_of_In|].
    apply andb_true_iff. split; [done|]. by apply dict_in_is_Some.
Qed.

Lemma has_entry_no_cmap font c : table_cmap font = None → ¬ has_entry font c.
Proof. intros Ht (tables & cm & Ht' & _). congruence. Qed.

Lemma char_in_font_char font c :
  (char_in_font [c] font = Ok true ↔ has_entry font c)
  ∧ (char_in_font [c] font = Ok false ↔ ¬ has_entry font c).
Proof.
  unfold char_in_font. destruct (table_cmap font) as [tables|] eqn:Ht.
  - rewrite char_in_font_loop_char.
    pose proof (existsb_entry font c tables Ht) as Hiff.
    destruct (existsb _ tables).
    + assert (has_entry font c) as He by (apply Hiff; reflexivity).
      split; split; intros Hx; done.
    + assert (¬ has_entry font c) as He.
      { intros He. apply Hiff in He. discriminate. }
      split; split; intros Hx; done.
  - pose proof (has_entry_no_cmap font c Ht) as Hno.
    split; split; intros Hx; done.
Qed.

Lemma char_in_font_char_returns font c : ∃ b, char_in_font [c] font = Ok b.
Proof.
  unfold char_in_font. destruct (table_cmap font) as [tables|]; [|by eexists].
  rewrite char_in_font_loop_char. by eexists.
Qed.

Lemma no_glyph_zero_entry font c :
  no_glyph_zero font → has_entry font c ↔ maps_to_glyph font c.
Proof.
  intros Hz. split.
  - intros (tables & cm & Ht & Hin & Hu & [g Hg]).
    exists tables, cm, g. repeat (split; [done|]).
    intros ->. by apply (Hz tables cm c).
  - intros (tables & cm & g & Ht & Hin & Hu & Hg & _).
    exists tables, cm. repeat (split; [done|]). by exists g.
Qed.

(** C1: on every loaded font and every code point, [char_in_font]
    returns true if and only if some Unicode-capable character-mapping
    table of the font maps the code point to a non-zero glyph
    identifier. A loaded font is a font object as fontTools makes it
    from a file: the tables it decompiles to hold no entry for glyph 0;
    on a font whose cmap table does not decompile the function raises
    and no table maps anything. *)
Theorem char_in_font_iff_glyph (f : loaded_font) (c : Z) :
  (∀ font, f = Sound font → no_glyph_zero font) →
  char_in_font_object [c] f = Ok true
  ↔ ∃ font, f = Sound font ∧ maps_to_glyph font c.
Proof.
  intros Hz. destruct f as [font|e font]; simpl.
  - destruct (char_in_font_char font c) as [Ht _]. rewrite Ht.
    rewrite (no_glyph_zero_entry font c (Hz font eq_refl)). split.
    + intros Hm. by exists font.
    + by intros (font' & [= <-] & Hm).
  - split; [done|]. by intros (font' & Heq & _).
Qed.

(** C3, as amended: on every loaded font whose cmap table decompiles,
    or that has none, [char_in_font], queried with the code point zero
    or with a code point outside the Unicode scalar range, does not
    raise, and it returns false exactly when no Unicode-capable table of
    the font has an entry for that code point: such code points are
    looked up like any other, there is no validation. *)
Theorem char_in_font_zero_or_non_scalar (font : TTFont) (c : Z) :
  c = 0 ∨ ¬ is_scalar c →
  (∃ b, char_in_font_object [c] (Sound font) = Ok b)
  ∧ (char_in_font_object [c] (Sound font) = Ok false ↔ ¬ has_entry font c).
Proof.
  intros _. simpl. destruct (char_in_font_char font c) as [_ Hf]. split; [|done].
  apply char_in_font_char_returns.
Qed.

(** C5: on a font with zero character-mapping tables (no [cmap] table,
    or a [cmap] table without sub-tables) [char_in_font] returns false
    for every argument, and does not raise. *)
Theorem char_in_font_no_tables (font : TTFont) (unicode_char : pystr) :
  table_cmap font = None ∨ table_cmap font = Some [] →
  char_in_font unicode_char font = Ok false.
Proof. unfold char_in_font. by intros [-> | ->]. Qed.

(** C7: the result of [char_in_font] does not depend on the order of
    the font's character-mapping tables: permuting them changes neither
    the boolean nor, for an argument that is not one character, the
    error. *)
Theorem char_in_font_permutation (unicode_char : pystr)
    (tables tables' : list CmapSubtable.t) (names : option (list NameRecord.t)) :
  tables ≡ₚ tables' →
  char_in_font unicode_char (mkTTFont (Some tables) names)
  = char_in_font unicode_char (mkTTFont (Some tables') names).
Proof.
  intros Hp. unfold char_in_font. simpl.
  destruct (decide (length unicode_char = 1%nat)) as [Hlen|Hlen].
  - destruct unicode_char as [|c [|c' s]]; simpl in Hlen; try done.
    rewrite !char_in_font_loop_char. f_equal. by apply existsb_Permutation.
  - rewrite !char_in_font_loop_not_char by done.
    by rewrite (existsb_Permutation _ _ _ Hp).
Qed.

(** C10: for a string whose length is not one and a font with at least
    one Unicode-capable character-mapping table, [char_in_font] raises
    (the [TypeError] of [ord]) and returns no boolean. *)
Theorem char_in_font_not_single_char (unicode_char : pystr) (font : TTFont)
    (tables : list CmapSubtable.t) (cm : CmapSubtable.t) :
  length unicode_char ≠ 1%nat →
  table_cmap font = Some tables →
  cm ∈ tables →
  isUnicode cm = true →
  char_in_font unicode_char font = Raise TypeError.
Proof.
  intros Hlen Ht Hin Hu. unfold char_in_font. rewrite Ht.
  rewrite char_in_font_loop_not_char by done.
  assert (existsb isUnicode tables = true) as ->; [|done].
  apply existsb_exists. exists cm. split; [by apply list_elem_of_In|done].
Qed.

End coverage.

(** * Name extractor *)

Section naming.
Context `{FontLib}.

Lemma name_record_selected_iff r :
  name_record_selected r = true ↔ family_or_full_windows_bmp r.
Proof.
  unfold name_record_selected, family_or_full_windows_bmp.
  rewrite !andb_true_iff, orb_true_iff, !Z.eqb_eq. tauto.
Qed.

Lemma name_record_not_selected r :
  ¬ family_or_full_windows_bmp r → name_record_selected r = false.
Proof.
  intros Hn. destruct (name_record_selected r) eqn:E; [|done].
  exfalso. by apply Hn, name_record_selected_iff.
Qed.

Lemma get_font_name_loop_none names :
  Forall (λ r, ¬ family_or_full_windows_bmp r) names →
  get_font_name_loop names = Ok unknown_font.
Proof.
  induction 1 as [|r rest Hr _ IH]; simpl; [done|].
  by rewrite (name_record_not_selected r Hr).
Qed.

Lemma get_font_name_loop_first pre r post :
  Forall (λ r, ¬ family_or_full_windows_bmp r) pre →
  family_or_full_windows_bmp r →
  get_font_name_loop (pre ++ r :: post) = toUnicode r.
Proof.
  intros Hpre Hr. induction Hpre as [|r' rest Hr' _ IH]; simpl.
  - apply name_record_selected_iff in Hr. by rewrite Hr.
  - by rewrite (name_record_not_selected r' Hr').
Qed.

Lemma get_font_name_returns font : ∃ text, get_font_name font = Ok text.
Proof.
  unfold get_font_name.
  destruct (match table_name font with
            | Some names => get_font_name_loop names
            | None => Ok unknown_font
            end) as [text|e]; simpl; by eexists.
Qed.

(** C4: [get_font_name] never raises; it returns the decoded text of
    the first naming record whose name identifier is 1 or 4 with
    platform identifier 3 and encoding identifier 1; when the font has
    no naming table, when no record is such a record, or when decoding
    that record raises, it returns the placeholder "Unknown font". *)
Theorem get_font_name_first_match (font : TTFont) :
  (∃ text, get_font_name font = Ok text)
  ∧ (table_name font = None → get_font_name font = Ok (py "Unknown font"))
  ∧ (∀ names,
       table_name font = Some names →
       Forall (λ r, ¬ family_or_full_windows_bmp r) names →
       get_font_name font = Ok (py "Unknown font"))
  ∧ (∀ pre r post,
       table_name font = Some (pre ++ r :: post) →
       Forall (λ r, ¬ family_or_full_windows_bmp r) pre →
       family_or_full_windows_bmp r →
       (∀ text, toUnicode r = Ok text → get_font_name font = Ok text)
       ∧ (∀ e, toUnicode r = Raise e →
            get_font_name font = Ok (py "Unknown font"))).
Proof.
  split; [apply get_font_name_returns|].
  unfold get_font_name. split; [|split].
  - by intros ->.
  - intros names -> Hall. by rewrite get_font_name_loop_none.
  - intros pre r post -> Hpre Hr.
    rewrite get_font_name_loop_first by done.
    split; [intros text ->|intros e ->]; done.
Qed.

End naming.

(** * Font loader *)

Section loader.

Lemma cache_get_None key c : cache_get key c = None ↔ key ∉ c.*1.
Proof.
  induction c as [|[k v] rest IH]; simpl.
  - split; [intros _; apply not_elem_of_nil|done].
  - rewrite not_elem_of_cons. destruct (decide (k = key)) as [->|Hne].
    + split; [done|]. by intros [? _].
    + rewrite IH. split; [by split|by intros [_ ?]].
Qed.

Lemma cache_get_front key v c : cache_get key ((key, v) :: c) = Some v.
Proof. simpl. by rewrite decide_True. Qed.

Lemma cache_get_middle key v pre post :
  key ∉ pre.*1 → cache_get key (pre ++ (key, v) :: post) = Some v.
Proof.
  induction pre as [|[k v'] rest IH]; simpl; intros Hnot.
  - by rewrite decide_True.
  - apply not_elem_of_cons in Hnot as [Hne Hnot].
    rewrite decide_False by done. by apply IH.
Qed.

Lemma cache_get_Some key v c : cache_get key c = Some v → (key, v) ∈ c.
Proof.
  induction c as [|[k v'] rest IH]; simpl; [done|].
  destruct (decide (k = key)) as [->|Hne].
  - intros [= ->]. apply list_elem_of_here.
  - intros Hg. apply list_elem_of_further. by apply IH.
Qed.

(** The body of [load_font] written out: the file is read once, the
    cache is not touched, and nothing is raised. *)
Lemma load_font_body_eq w p st :
  load_font_body w p st
  = match TTFont_open w p with
    | Ok f =>
        (Return (Some (mkObj (next_id st) f)),
         mkState (cache st) (reads st ++ [p]) (S (next_id st))
           (stdout st) (walked st))
    | Raise _ =>
        (Return None,
         mkState (cache st) (reads st ++ [p]) (next_id st)
           (stdout st) (walked st))
    end.
Proof.
  unfold load_font_body, try_except_M, mbind, M_bind, TTFont_new.
  by destruct (TTFont_open w p).
Qed.

Lemma load_font_hit w p st v :
  cache_get p (cache st) = Some v →
  load_font w p st = (Return v, set_cache (cache_touch p v (cache st)) st).
Proof. intros Hg. unfold load_font, lru_cache. by rewrite Hg. Qed.

Lemma load_font_miss w p st :
  cache_get p (cache st) = None →
  ∃ r st1,
    load_font_body w p st = (Return r, st1)
    ∧ cache st1 = cache st
    ∧ reads st1 = reads st ++ [p]
    ∧ stdout st1 = stdout st
    ∧ walked st1 = walked st
    ∧ load_font w p st = (Return r, set_cache (cache_put p r (cache st)) st1).
Proof.
  intros Hg. unfold load_font, lru_cache. rewrite Hg, load_font_body_eq.
  destruct (TTFont_open w p) as [f|e]; simpl; rewrite Hg;
    do 2 eexists; repeat (split; [reflexivity|]); reflexivity.
Qed.

Lemma load_font_returns w p st : ∃ r st', load_font w p st = (Return r, st').
Proof.
  destruct (cache_get p (cache st)) as [v|] eqn:Hg.
  - rewrite (load_font_hit w p st v Hg). by do 2 eexists.
  - destruct (load_font_miss w p st Hg) as (r & st1 & _ & _ & _ & _ & _ & ->).
    by do 2 eexists.
Qed.

(** After a call the entry of the path is the most recently used one
    and holds what the call returned. *)
Lemma load_font_front w p st :
  ∃ r st' rest,
    load_font w p st = (Return r, st') ∧ cache st' = (p, r) :: rest.
Proof.
  destruct (cache_get p (cache st)) as [v|] eqn:Hg.
  - rewrite (load_font_hit w p st v Hg). by do 3 eexists.
  - destruct (load_font_miss w p st Hg) as (r & st1 & _ & _ & _ & _ & _ & ->).
    by do 3 eexists.
Qed.

(** C6: [load_font] is total: every call returns, with a font object or
    with [None], and never raises; a call that reads the file and whose
    parse raises any exception returns [None]. *)
Theorem load_font_total (w : world) (fontpath : pystr) (st : state) :
  (∃ r st', load_font w fontpath st = (Return r, st'))
  ∧ (∀ e, TTFont_open w fontpath = Raise e →
       (load_font_body w fontpath st).1 = Return None)
  ∧ (∀ e, cache_get fontpath (cache st) = None →
       TTFont_open w fontpath = Raise e →
       (load_font w fontpath st).1 = Return None).
Proof.
  split; [apply load_font_returns|]. split.
  - intros e He. by rewrite load_font_body_eq, He.
  - intros e Hg He.
    destruct (load_font_miss w fontpath st Hg)
      as (r & st1 & Hb & _ & _ & _ & _ & ->).
    rewrite load_font_body_eq, He in Hb. by inversion Hb.
Qed.

(** C8: with an entry for the path in the cache, [load_font] returns
    the cached value itself (the same object, hence the same coverage
    and naming outcomes) and reads no file, whatever the file now
    holds; and two calls in a row return the same value, the second
    without reading. *)
Theorem load_font_warm (w w' : world) (fontpath : pystr) (st : state) :
  (∀ v, cache_get fontpath (cache st) = Some v →
     ∃ st', load_font w fontpath st = (Return v, st')
            ∧ reads st' = reads st
            ∧ next_id st' = next_id st
            ∧ cache_get fontpath (cache st') = Some v)
  ∧ (let first := load_font w fontpath st in
     let second := load_font w' fontpath first.2 in
     second.1 = first.1
     ∧ reads second.2 = reads first.2
     ∧ next_id second.2 = next_id first.2).
Proof.
  split.
  - intros v Hg. rewrite (load_font_hit w fontpath st v Hg).
    eexists. split; [done|]. simpl. by rewrite decide_True.
  - destruct (load_font_front w fontpath st) as (r & st' & rest & -> & Hc).
    simpl. rewrite (load_font_hit w' fontpath st' r); [done|].
    rewrite Hc. apply cache_get_front.
Qed.

End loader.

(** * Eviction from the loader's cache *)

Section eviction.

Lemma cache_wf_init : cache_wf init_state.
Proof. split; simpl; [constructor|lia]. Qed.

Lemma removelast_sublist {A} (l : list A) : removelast l `sublist_of` l.
Proof. rewrite removelast_firstn_len. apply sublist_take. Qed.

Lemma keys_sublist (c c' : list (pystr * option obj)) k :
  c `sublist_of` c' → k ∈ c.*1 → k ∈ c'.*1.
Proof.
  intros Hs Hk. eapply elem_of_sublist; [done|]. by apply fmap_sublist.
Qed.

Lemma keys_sublist_NoDup (c c' : list (pystr * option obj)) :
  c `sublist_of` c' → NoDup c'.*1 → NoDup c.*1.
Proof. intros Hs Hn. eapply sublist_NoDup; [done|]. by apply fmap_sublist. Qed.

Lemma keys_filter (P : pystr * option obj → Prop) `{∀ x, Decision (P x)} c k :
  k ∈ (filter P c).*1 → k ∈ c.*1.
Proof. apply keys_sublist, sublist_filter. Qed.

Lemma keys_filter_ne key (c : list (pystr * option obj)) :
  key ∉ (filter (λ kv, kv.1 ≠ key) c).*1.
Proof.
  intros ([k v] & Hk & Hin)%list_elem_of_fmap.
  apply list_elem_of_filter in Hin as [Hne _]. simpl in *. by subst.
Qed.

Lemma cache_touch_wf key v c :
  (key, v) ∈ c → NoDup c.*1 → (length c ≤ maxsize)%nat →
  NoDup (cache_touch key v c).*1 ∧ (length (cache_touch key v c) ≤ maxsize)%nat.
Proof.
  intros Hin Hn Hlen. unfold cache_touch. split.
  - rewrite fmap_cons. apply NoDup_cons. split; [apply keys_filter_ne|].
    eapply keys_sublist_NoDup; [apply sublist_filter|done].
  - simpl.
    assert (length (filter (λ kv, kv.1 ≠ key) c) < length c)%nat; [|lia].
    apply (length_filter_lt _ _ (key, v)); [done|]. simpl. by intros Hx.
Qed.

Lemma cache_put_wf key v c :
  key ∉ c.*1 → NoDup c.*1 → (length c ≤ maxsize)%nat →
  NoDup (cache_put key v c).*1 ∧ (length (cache_put key v c) ≤ maxsize)%nat.
Proof.
  intros Hnot Hn Hlen. unfold cache_put. case_decide as Hfull.
  - split.
    + rewrite fmap_cons. apply NoDup_cons. split.
      * intros Hk. apply Hnot. eapply keys_sublist; [apply removelast_sublist|done].
      * eapply keys_sublist_NoDup; [apply removelast_sublist|done].
    + simpl. rewrite removelast_firstn_len, length_take.
      unfold maxsize in *. lia.
  - split.
    + rewrite fmap_cons. apply NoDup_cons. by split.
    + simpl. lia.
Qed.

Lemma load_font_wf w p st : cache_wf st → cache_wf (load_font w p st).2.
Proof.
  intros [Hn Hlen]. destruct (cache_get p (cache st)) as [v|] eqn:Hg.
  - rewrite (load_font_hit w p st v Hg). unfold cache_wf. simpl.
    apply (cache_touch_wf p v); [by apply cache_get_Some|done|done].
  - destruct (load_font_miss w p st Hg) as (r & st1 & _ & _ & _ & _ & _ & ->).
    unfold cache_wf. simpl. apply (cache_put_wf p r); [by apply cache_get_None|done|done].
Qed.

Lemma NoDup_subseteq_size (l : list pystr) (D : gset pystr) :
  NoDup l → (∀ k, k ∈ l → k ∈ D) → (length l ≤ size D)%nat.
Proof.
  intros Hn Hsub. rewrite <- (size_list_to_set (C:=gset pystr) l Hn).
  apply subseteq_size. intros k Hk. apply Hsub. by apply elem_of_list_to_set in Hk.
Qed.

(** One more call, for [p] itself or for a path of [D], keeps the
    failure cached: with fewer than [maxsize] paths in [D] the entry of
    [p] is never the least recently used entry of a full cache. *)
Lemma failure_cached_step p D st w q :
  (size D < maxsize)%nat →
  failure_cached p D st →
  q = p ∨ q ∈ D →
  failure_cached p D (load_font w q st).2.
Proof.
  intros Hsize (Hwf & pre & post & Hc & Hp & Hsub) Hq.
  split; [by apply load_font_wf|].
  destruct (decide (q = p)) as [->|Hne].
  - rewrite (load_font_hit w p st None); [|rewrite Hc; by apply cache_get_middle].
    simpl. unfold cache_touch. exists [], (filter (λ kv, kv.1 ≠ p) (cache st)).
    split; [done|]. split; [apply not_elem_of_nil|]. intros k Hk.
    by apply elem_of_nil in Hk.
  - destruct Hq as [?|HqD]; [done|].
    destruct (cache_get q (cache st)) as [v|] eqn:Hg.
    + rewrite (load_font_hit w q st v Hg). simpl. unfold cache_touch.
      rewrite Hc, filter_app, filter_cons_True by (simpl; congruence).
      exists ((q, v) :: filter (λ kv, kv.1 ≠ q) pre), (filter (λ kv, kv.1 ≠ q) post).
      split; [done|]. split.
      * rewrite fmap_cons. apply not_elem_of_cons. split; [done|].
        intros Hk. apply Hp. by apply keys_filter in Hk.
      * intros k Hk. rewrite fmap_cons in Hk. apply elem_of_cons in Hk as [->|Hk]; [done|].
        apply Hsub. by apply keys_filter in Hk.
    + destruct (load_font_miss w q st Hg) as (r & st1 & _ & _ & _ & _ & _ & ->).
      simpl. unfold cache_put.
      assert (∀ k, k ∈ ((q, r) :: pre).*1 → k ∈ D) as Hsub'.
      { intros k Hk. rewrite fmap_cons in Hk.
        apply elem_of_cons in Hk as [->|Hk]; [done|by apply Hsub]. }
      assert (p ∉ ((q, r) :: pre).*1) as Hp'.
      { rewrite fmap_cons. apply not_elem_of_cons. by split. }
      case_decide as Hfull.
      * destruct post as [|x post'].
        { exfalso. destruct Hwf as [Hn _].
          apply cache_get_None in Hg. rewrite Hc in Hg, Hn, Hfull.
          rewrite fmap_app in Hg, Hn. apply NoDup_app in Hn as (Hn & _ & _).
          assert (NoDup ((q, r) :: pre).*1) as Hn'.
          { rewrite fmap_cons. apply NoDup_cons. split; [|done].
            intros Hk. apply Hg. apply elem_of_app. by left. }
          pose proof (NoDup_subseteq_size _ D Hn' Hsub') as Hle.
          rewrite length_fmap in Hle. rewrite length_app in Hfull.
          simpl in Hle, Hfull. lia. }
        rewrite Hc, removelast_app by done.
        exists ((q, r) :: pre), (removelast (x :: post')).
        split; [done|]. by split.
      * exists ((q, r) :: pre), post. rewrite Hc. split; [done|]. by split.
Qed.

Lemma failure_cached_loads p D calls st :
  (size D < maxsize)%nat →
  failure_cached p D st →
  (∀ q, q ∈ calls.*2 → q = p ∨ q ∈ D) →
  failure_cached p D (loads calls st).
Proof.
  intros Hsize. revert st. induction calls as [|[w q] rest IH]; intros st Hinv Hq.
  - done.
  - simpl. apply IH.
    + apply failure_cached_step; [done|done|]. apply Hq. rewrite fmap_cons. left.
    + intros q' Hq'. apply Hq. rewrite fmap_cons. by right.
Qed.

Lemma failure_cached_first w p D st :
  cache_wf st →
  (load_font w p st).1 = Return None →
  failure_cached p D (load_font w p st).2.
Proof.
  intros Hwf Hr. split; [by apply load_font_wf|].
  destruct (load_font_front w p st) as (r & st' & rest & Heq & Hc).
  rewrite Heq in *. simpl in *. injection Hr as ->.
  exists [], rest. split; [done|]. split; [apply not_elem_of_nil|].
  intros k Hk. by apply elem_of_nil in Hk.
Qed.

Lemma failure_cached_load w p D st :
  failure_cached p D st →
  (load_font w p st).1 = Return None
  ∧ reads (load_font w p st).2 = reads st.
Proof.
  intros (_ & pre & post & Hc & Hp & _).
  rewrite (load_font_hit w p st None); [done|].
  rewrite Hc. by apply cache_get_middle.
Qed.

(** C2, as amended: once a call [load_font(p)] has returned the
    failure (as a call whose parse fails does), every later call for
    the same path returns the cached failure without reading the file
    again, as long as fewer than 512 distinct other paths are loaded in
    between; the cache holds 512 entries and drops the least recently
    used one beyond that. *)
Theorem load_font_failure_kept (w0 w' : world) (p : pystr) (st : state)
    (calls : list (world * pystr)) :
  cache_wf st →
  (load_font w0 p st).1 = Return None →
  (size (other_paths p calls) < maxsize)%nat →
  failure_kept (load_font w0 p st).2 calls w' p.
Proof.
  intros Hwf Hr Hsize. unfold failure_kept.
  apply (failure_cached_load w' p (other_paths p calls)).
  apply failure_cached_loads; [done| |].
  - by apply failure_cached_first.
  - intros q Hq. destruct (decide (q = p)) as [->|Hne]; [by left|right].
    unfold other_paths. apply elem_of_difference. split.
    + by apply elem_of_list_to_set.
    + by apply not_elem_of_singleton.
Qed.

End eviction.

(** * Driver *)

Section driver.
Context `{FontLib}.

Lemma get_char_description_char c : ∃ d, get_char_description [c] = Ok d.
Proof.
  unfold get_char_description, unicodedata_name. simpl.
  destruct (unicode_names c); by eexists.
Qed.

Lemma get_char_description_not_char char :
  length char ≠ 1%nat → get_char_description char = Raise TypeError.
Proof. intros Hlen. by destruct char as [|c [|c' s]]. Qed.

Lemma encodable_ascii w text : ascii_text text = true → encodable w text = true.
Proof.
  unfold encodable, ascii_text. rewrite !forallb_forall.
  intros Ha c Hc. by rewrite (Ha c Hc).
Qed.

Lemma ascii_text_app a b :
  ascii_text a = true → ascii_text b = true → ascii_text (a ++ b) = true.
Proof. unfold ascii_text. intros Ha Hb. by rewrite forallb_app, Ha, Hb. Qed.

Lemma digits_ascii d : ascii_text (py (NilEmpty.string_of_uint d)) = true.
Proof. induction d; simpl; done. Qed.

Lemma decimal_ascii n : ascii_text (decimal n) = true.
Proof.
  unfold decimal, NilZero.string_of_uint.
  destruct (Nat.to_uint n); try apply digits_ascii. done.
Qed.

Lemma print_encodable w text st :
  encodable w text = true →
  print w text st
  = (Return tt,
     mkState (cache st) (reads st) (next_id st) (stdout st ++ [text]) (walked st)).
Proof. intros He. unfold print. by rewrite He. Qed.

Lemma print_ascii w text st :
  ascii_text text = true →
  print w text st
  = (Return tt,
     mkState (cache st) (reads st) (next_id st) (stdout st ++ [text]) (walked st)).
Proof. intros Ha. by apply print_encodable, encodable_ascii. Qed.

(** With an argument, [main] gets through the discovery: its two lines
    are ASCII text. *)
Lemma main_args w prog char rest st :
  main w (prog :: char :: rest) st
  = main_loop w (char :: rest) (discovered w) (after_discovery w st).
Proof.
  unfold main. cbn [drop]. unfold mbind, M_bind.
  rewrite print_ascii by done. unfold discover_fonts. cbv beta iota.
  rewrite print_ascii.
  - cbn [cache reads next_id stdout walked].
    unfold after_discovery, discovery_lines, discovered.
    by rewrite <- app_assoc.
  - apply ascii_text_app; [done|].
    apply ascii_text_app; [apply decimal_ascii|done].
Qed.

(** C9, as amended: invoked with no character argument, [main] prints
    the usage message, exits with status 1 and neither walks the font
    directory nor loads a font. It is not the only fatal path: a first
    argument that is not a single character ends the run with an
    uncaught [TypeError], after the discovery and before any font is
    loaded. *)
Theorem main_usage_error (w : world) (argv : list pystr) (st : state) :
  (drop 1 argv = [] →
     ∃ st', main w argv st = (SystemExit 1, st')
            ∧ stdout st' = stdout st ++ usage
            ∧ walked st' = walked st
            ∧ reads st' = reads st
            ∧ cache st' = cache st)
  ∧ (∀ bad rest,
       drop 1 argv = bad :: rest →
       length bad ≠ 1%nat →
       ∃ st', main w argv st = (Raised TypeError, st')
              ∧ stdout st' = stdout st ++ discovery_lines w
              ∧ walked st' = walked st ++ [default_font_dir]
              ∧ reads st' = reads st).
Proof.
  split.
  - unfold main. intros ->. unfold mbind, M_bind.
    rewrite !print_ascii by done. cbv beta iota. unfold sys_exit.
    eexists. split; [reflexivity|]. cbn [stdout walked reads cache].
    unfold usage. by rewrite <- app_assoc.
  - intros bad rest Hargv Hlen. destruct argv as [|prog args]; [done|].
    change (args = bad :: rest) in Hargv. subst args. rewrite main_args.
    cbn [main_loop]. unfold mbind, M_bind, find_fonts_for_char.
    unfold mbind, M_bind. rewrite get_char_description_not_char by done.
    eexists. split; [reflexivity|]. done.
Qed.

End driver.

(** * The program on concrete fonts and files *)

(** Scenarios A and B of the specification: U+0041 is covered by
    [font_A] and U+1F600 is not. *)
Lemma font_A_no_glyph_zero : no_glyph_zero font_A.
Proof.
  intros tables cm c [= <-] ->%list_elem_of_singleton. simpl.
  destruct (decide (c = 0x41)) as [->|Hne].
  - by rewrite lookup_singleton_eq.
  - by rewrite lookup_singleton_ne.
Qed.

Lemma char_in_font_iff_glyph_witness :
  char_in_font_object [0x41] (Sound font_A) = Ok true
  ∧ char_in_font_object [0x1F600] (Sound font_A) ≠ Ok true.
Proof.
  split.
  - apply (char_in_font_iff_glyph (Sound font_A) 0x41).
    + intros font [= <-]. apply font_A_no_glyph_zero.
    + exists font_A. split; [reflexivity|].
      exists [CmapSubtable.mk 3 1 {[ 0x41 := 5 ]}], (CmapSubtable.mk 3 1 {[ 0x41 := 5 ]}), 5.
      split; [reflexivity|]. split; [apply list_elem_of_here|].
      split; [reflexivity|]. split; [reflexivity|lia].
  - intros Ht.
    apply (char_in_font_iff_glyph (Sound font_A) 0x1F600) in Ht
      as (font & [= <-] & tables & cm & g & [= <-] & ->%list_elem_of_singleton & _ & Hg & _).
    + simpl in Hg. by rewrite lookup_singleton_ne in Hg.
    + intros font [= <-]. apply font_A_no_glyph_zero.
Defined.

Lemma char_in_font_zero_or_non_scalar_witness :
  (∃ b, char_in_font_object [0] (Sound font_A) = Ok b)
  ∧ (char_in_font_object [0] (Sound font_A) = Ok false ↔ ¬ has_entry font_A 0).
Proof. apply (char_in_font_zero_or_non_scalar font_A 0). by left. Defined.

(** The code point zero and a surrogate are found like any other code
    point when a Unicode table has an entry for them. *)
Lemma char_in_font_zero_found :
  char_in_font [0] font_null = Ok true
  ∧ ¬ is_scalar 0xD800
  ∧ char_in_font [0xD800] font_surrogate = Ok true.
Proof.
  split; [reflexivity|]. split; [|reflexivity].
  unfold is_scalar. lia.
Qed.

Lemma char_in_font_no_tables_witness :
  char_in_font (py "ab") font_no_cmap = Ok false
  ∧ char_in_font [0x41] font_empty_cmap = Ok false.
Proof.
  split.
  - apply char_in_font_no_tables. by left.
  - apply char_in_font_no_tables. by right.
Defined.

Lemma char_in_font_permutation_witness :
  char_in_font [0x20AC]
    (mkTTFont (Some [CmapSubtable.mk 1 0 {[ 0x41 := 36 ]};
                     CmapSubtable.mk 0 3 {[ 0x20AC := 7 ]}]) None)
  = char_in_font [0x20AC]
      (mkTTFont (Some [CmapSubtable.mk 0 3 {[ 0x20AC := 7 ]};
                       CmapSubtable.mk 1 0 {[ 0x41 := 36 ]}]) None).
Proof. apply char_in_font_permutation. apply Permutation_swap. Defined.

Lemma char_in_font_not_single_char_witness :
  char_in_font (py "ab") font_A = Raise TypeError.
Proof.
  apply (char_in_font_not_single_char (py "ab") font_A
           [CmapSubtable.mk 3 1 {[ 0x41 := 5 ]}]
           (CmapSubtable.mk 3 1 {[ 0x41 := 5 ]})).
  - simpl. lia.
  - reflexivity.
  - apply list_elem_of_here.
  - reflexivity.
Defined.

(** [font_A]: the record with name identifier 2 and the Macintosh
    record are passed over, the full name comes before the family name.
    [font_bad_name]: the first selected record does not decode.
    [font_null]: no name table. *)
Lemma get_font_name_first_match_witness :
  get_font_name font_A = Ok (py "Foo")
  ∧ get_font_name font_bad_name = Ok (py "Unknown font")
  ∧ get_font_name font_null = Ok (py "Unknown font").
Proof.
  split; [|split].
  - destruct (get_font_name_first_match font_A) as (_ & _ & _ & Hm).
    apply (Hm [NameRecord.mk 2 3 1 [0; 0x52]; NameRecord.mk 1 1 0 [0x46; 0x6F; 0x6F]]
              (NameRecord.mk 4 3 1 [0; 0x46; 0; 0x6F; 0; 0x6F])
              [NameRecord.mk 1 3 1 [0; 0x42]]).
    + reflexivity.
    + repeat constructor; unfold family_or_full_windows_bmp; simpl; lia.
    + unfold family_or_full_windows_bmp; simpl; lia.
    + reflexivity.
  - destruct (get_font_name_first_match font_bad_name) as (_ & _ & _ & Hm).
    apply (Hm [] (NameRecord.mk 4 3 1 [0xD8; 0x00]) [NameRecord.mk 1 3 1 [0; 0x42]])
      with UnicodeDecodeError.
    + reflexivity.
    + constructor.
    + unfold family_or_full_windows_bmp; simpl; lia.
    + reflexivity.
  - destruct (get_font_name_first_match font_null) as (_ & Hn & _).
    by apply Hn.
Defined.

(** Scenario C of the specification: a file that does not parse. *)
Lemma load_font_total_witness :
  (load_font world_bad (py "/empty.ttf") init_state).1 = Return None.
Proof.
  exact (proj2 (proj2 (load_font_total world_bad (py "/empty.ttf") init_state))
           OSError eq_refl eq_refl).
Defined.

(** The second call returns the object of the first, although the
    file no longer parses. *)
Lemma load_font_warm_witness :
  (load_font world_bad (py "/a.ttf") (load_font world_A (py "/a.ttf") init_state).2).1
  = Return (Some (mkObj 0 (Sound font_A)))
  ∧ reads (load_font world_bad (py "/a.ttf")
             (load_font world_A (py "/a.ttf") init_state).2).2
    = [py "/a.ttf"].
Proof.
  destruct (load_font_warm world_A world_bad (py "/a.ttf") init_state)
    as (_ & Hr & Hreads & _).
  split.
  - rewrite Hr. reflexivity.
  - rewrite Hreads. reflexivity.
Defined.

Lemma other_paths_size_le p calls :
  (size (other_paths p calls) ≤ length calls)%nat.
Proof.
  rewrite <- (length_fmap snd calls).
  change (size (other_paths p calls))
    with (length (elements (other_paths p calls))).
  apply submseteq_length, NoDup_submseteq; [apply NoDup_elements|].
  intros q Hq. apply elem_of_elements in Hq. unfold other_paths in Hq.
  apply elem_of_difference in Hq as [Hq _]. by apply elem_of_list_to_set in Hq.
Qed.

Lemma load_font_failure_kept_witness :
  failure_kept (load_font world_bad (py "/bad.ttf") init_state).2
    [(world_A, py "/a.ttf"); (world_bad, py "/b.ttf"); (world_A, py "/a.ttf")]
    world_A (py "/bad.ttf").
Proof.
  apply load_font_failure_kept.
  - apply cache_wf_init.
  - reflexivity.
  - eapply Nat.le_lt_trans; [apply other_paths_size_le|].
    simpl. unfold maxsize. lia.
Defined.

(** After 512 other paths the failure cached for [/bad.ttf] has been
    evicted, and the next call reads the file again. *)
Lemma load_font_failure_evicted :
  cache_wf init_state
  ∧ TTFont_open world_bad (py "/bad.ttf") = Raise OSError
  ∧ (load_font world_bad (py "/bad.ttf") init_state).1 = Return None
  ∧ NoDup (many_calls.*2)
  ∧ (py "/bad.ttf" ∉ many_calls.*2)
  ∧ ¬ failure_kept (load_font world_bad (py "/bad.ttf") init_state).2
        many_calls world_bad (py "/bad.ttf").
Proof.
  split; [apply cache_wf_init|]. split; [reflexivity|]. split; [reflexivity|].
  split; [|split].
  - apply (bool_decide_unpack (NoDup (many_calls.*2))). vm_compute. reflexivity.
  - apply (bool_decide_unpack (py "/bad.ttf" ∉ many_calls.*2)). vm_compute.
    reflexivity.
  - assert (length (reads (load_font world_bad (py "/bad.ttf")
                             (loads many_calls
                                (load_font world_bad (py "/bad.ttf") init_state).2)).2)
            ≠ length (reads (loads many_calls
                               (load_font world_bad (py "/bad.ttf") init_state).2)))
      as Hlen.
    { apply Nat.eqb_neq. vm_compute. reflexivity. }
    intros [_ Hreads]. apply Hlen. exact (f_equal length Hreads).
Qed.

Lemma main_usage_error_witness :
  (∃ st', main world_A [py "char2fonts.py"] init_state = (SystemExit 1, st')
          ∧ stdout st' = stdout init_state ++ usage
          ∧ walked st' = walked init_state
          ∧ reads st' = reads init_state
          ∧ cache st' = cache init_state)
  ∧ (∃ st', main world_A [py "char2fonts.py"; py "ab"; [0x41]] init_state
            = (Raised TypeError, st')
            ∧ stdout st' = stdout init_state ++ discovery_lines world_A
            ∧ walked st' = walked init_state ++ [default_font_dir]
            ∧ reads st' = reads init_state).
Proof.
  split.
  - by apply (main_usage_error world_A [py "char2fonts.py"] init_state).
  - apply (proj2 (main_usage_error world_A [py "char2fonts.py"; py "ab"; [0x41]]
                    init_state) (py "ab") [[0x41]]).
    + reflexivity.
    + simpl. lia.
Defined.

(** An argument of two characters ends the program with the
    [TypeError] of [unicodedata.name], after the fonts were
    discovered. *)
Lemma main_two_character_argument :
  drop 1 [py "char2fonts.py"; py "ab"] ≠ []
  ∧ (main world_A [py "char2fonts.py"; py "ab"] init_state).1 = Raised TypeError
  ∧ walked (main world_A [py "char2fonts.py"; py "ab"] init_state).2
    = [default_font_dir].
Proof. split; [done|]. split; reflexivity. Qed.

(** * More on the coverage resolver *)

Section coverage_more.
Context `{FontLib}.

Lemma char_in_font_loop_filter s tables :
  char_in_font_loop s (filter (λ cm, isUnicode cm = true) tables)
  = char_in_font_loop s tables.
Proof.
  induction tables as [|cm rest IH]; [done|].
  destruct (isUnicode cm) eqn:Hu.
  - rewrite filter_cons_True by done. simpl. rewrite Hu, IH. done.
  - rewrite filter_cons_False by (rewrite Hu; done). simpl. by rewrite Hu.
Qed.

(** X1: tables that are not Unicode-capable play no part: on every
    argument [char_in_font] gives the same result, boolean or error, on
    the font and on the font stripped of those tables. *)
Theorem char_in_font_unicode_tables_only (unicode_char : pystr) (font : TTFont) :
  char_in_font unicode_char (unicode_tables_only font)
  = char_in_font unicode_char font.
Proof.
  unfold char_in_font, unicode_tables_only. simpl.
  destruct (table_cmap font) as [tables|]; simpl; [|done].
  apply char_in_font_loop_filter.
Qed.

Lemma existsb_isUnicode font tables :
  table_cmap font = Some tables →
  existsb isUnicode tables = true ↔ has_unicode_table font.
Proof.
  intros Ht. rewrite existsb_exists. split.
  - intros (cm & Hin & Hu). exists tables, cm.
    split; [done|]. split; [by apply list_elem_of_In|done].
  - intros (tables' & cm & Ht' & Hin & Hu).
    assert (tables' = tables) as -> by congruence.
    exists cm. split; [by apply list_elem_of_In|done].
Qed.

(** X2: on an argument that is not one character, [char_in_font]
    raises [TypeError] exactly when the font has a Unicode-capable
    table, and returns false exactly when it has none; it never returns
    true. *)
Theorem char_in_font_not_char_cases (unicode_char : pystr) (font : TTFont) :
  length unicode_char ≠ 1%nat →
  (char_in_font unicode_char font = Raise TypeError ↔ has_unicode_table font)
  ∧ (char_in_font unicode_char font = Ok false ↔ ¬ has_unicode_table font)
  ∧ char_in_font unicode_char font ≠ Ok true.
Proof.
  intros Hlen. unfold char_in_font.
  destruct (table_cmap font) as [tables|] eqn:Ht.
  - rewrite char_in_font_loop_not_char by done.
    pose proof (existsb_isUnicode font tables Ht) as Hiff.
    destruct (existsb isUnicode tables).
    + assert (has_unicode_table font) as Hu by (apply Hiff; reflexivity).
      split; [|split]; [split; intros Hx; done|split; intros Hx; done|done].
    + assert (¬ has_unicode_table font) as Hu.
      { intros Hu. apply Hiff in Hu. discriminate. }
      split; [|split]; [split; intros Hx; done|split; intros Hx; done|done].
  - assert (¬ has_unicode_table font) as Hu.
    { intros (tables & cm & Ht' & _). congruence. }
    split; [|split]; [split; intros Hx; done|split; intros Hx; done|done].
Qed.

(** X3: a font never loses coverage by gaining tables: on one
    character, [char_in_font] on the tables [t1 ++ t2] is the
    disjunction of its results on [t1] and on [t2]. *)
Theorem char_in_font_app (c : Z) (t1 t2 : list CmapSubtable.t)
    (names : option (list NameRecord.t)) :
  ∃ b1 b2,
    char_in_font [c] (mkTTFont (Some t1) names) = Ok b1
    ∧ char_in_font [c] (mkTTFont (Some t2) names) = Ok b2
    ∧ char_in_font [c] (mkTTFont (Some (t1 ++ t2)) names) = Ok (b1 || b2).
Proof.
  unfold char_in_font. simpl. rewrite !char_in_font_loop_char.
  do 2 eexists. split; [done|]. split; [done|].
  by rewrite existsb_app.
Qed.

End coverage_more.

(** * Character description *)

Section description.
Context `{FontLib}.

Lemma hex_digit_value_digit d : 0 ≤ d < 16 → hex_digit_value (hex_digit d) = d.
Proof.
  intros Hd. unfold hex_digit_value, hex_digit.
  destruct (Z.ltb_spec d 10).
  - destruct (Z.ltb_spec (48 + d) 58); lia.
  - destruct (Z.ltb_spec (55 + d) 58); lia.
Qed.

Lemma hex_digit_upper d : 0 ≤ d < 16 → is_upper_hex (hex_digit d).
Proof.
  intros Hd. unfold is_upper_hex, hex_digit. destruct (Z.ltb_spec d 10); lia.
Qed.

(** With enough fuel the digits of [hex_digits] read back as the
    number. *)
Lemma hex_digits_value fuel n acc :
  0 ≤ n < 16 ^ Z.of_nat fuel →
  foldl (λ a d, a * 16 + hex_digit_value d) 0 (hex_digits fuel n acc)
  = foldl (λ a d, a * 16 + hex_digit_value d) n acc.
Proof.
  revert n acc. induction fuel as [|fuel IH]; intros n acc Hn.
  - simpl in *. by replace n with 0 by lia.
  - pose proof (Z.div_mod n 16 ltac:(lia)) as Hdm.
    pose proof (Z.mod_pos_bound n 16 ltac:(lia)) as Hm.
    simpl hex_digits. destruct (Z.eqb_spec (n / 16) 0) as [Hz|Hnz].
    + simpl. rewrite hex_digit_value_digit by done. f_equal. lia.
    + rewrite IH.
      * simpl. rewrite hex_digit_value_digit by done. f_equal. lia.
      * rewrite Nat2Z.inj_succ, Z.pow_succ_r in Hn by lia.
        split; [apply Z.div_pos; lia|].
        apply Z.div_lt_upper_bound; lia.
Qed.

Lemma hex_digits_upper fuel n acc :
  Forall is_upper_hex acc → Forall is_upper_hex (hex_digits fuel n acc).
Proof.
  revert n acc. induction fuel as [|fuel IH]; intros n acc Hacc; [done|].
  pose proof (Z.mod_pos_bound n 16 ltac:(lia)) as Hm.
  simpl. destruct (n / 16 =? 0).
  - constructor; [by apply hex_digit_upper|done].
  - apply IH. constructor; [by apply hex_digit_upper|done].
Qed.

Lemma hex_digits_length fuel n acc (k : nat) :
  (1 ≤ k)%nat → 0 ≤ n < 16 ^ Z.of_nat k →
  (length (hex_digits fuel n acc) ≤ k + length acc)%nat.
Proof.
  revert n acc k. induction fuel as [|fuel IH]; intros n acc k Hk Hn.
  - simpl. lia.
  - simpl. destruct (Z.eqb_spec (n / 16) 0) as [Hz|Hnz].
    + simpl. lia.
    + destruct k as [|[|k']]; [lia| |].
      * exfalso. apply Hnz. apply Z.div_small. simpl in Hn. lia.
      * etransitivity; [apply (IH _ _ (S k'))|simpl; lia]; [lia|].
        rewrite (Nat2Z.inj_succ (S k')), Z.pow_succ_r in Hn by lia.
        split; [apply Z.div_pos; lia|].
        apply Z.div_lt_upper_bound; lia.
Qed.

Lemma hex_fuel_enough n :
  0 ≤ n → n < 16 ^ Z.of_nat (S (Z.to_nat (Z.log2 n))).
Proof.
  intros Hn. pose proof (Z.log2_nonneg n) as Hl.
  rewrite Nat2Z.inj_succ, Z2Nat.id by done.
  destruct (decide (n = 0)) as [->|Hne].
  - simpl. lia.
  - pose proof (Z.log2_spec n ltac:(lia)) as [_ Hlt].
    eapply Z.lt_le_trans; [exact Hlt|].
    apply Z.pow_le_mono_l. lia.
Qed.

Lemma hex_value_zeros k ds :
  hex_value (replicate k 48 ++ ds) = hex_value ds.
Proof. unfold hex_value. induction k as [|k IH]; simpl; done. Qed.

(** X5: the code point field of the description: for a code point
    (a number that is not negative) [format_04X] gives upper-case
    hexadecimal digits whose value is the code point, at least four of
    them, and exactly four up to U+FFFF. *)
Theorem format_04X_value (n : Z) :
  0 ≤ n →
  hex_value (format_04X n) = n
  ∧ Forall is_upper_hex (format_04X n)
  ∧ (4 ≤ length (format_04X n))%nat
  ∧ (n < 65536 → length (format_04X n) = 4%nat).
Proof.
  intros Hn. unfold format_04X. split; [|split; [|split]].
  - rewrite hex_value_zeros. unfold hex_value.
    rewrite hex_digits_value; [done|]. split; [done|by apply hex_fuel_enough].
  - apply Forall_app. split.
    + apply Forall_replicate. unfold is_upper_hex. lia.
    + by apply hex_digits_upper.
  - rewrite length_app, length_replicate. lia.
  - intros Hlt. rewrite length_app, length_replicate.
    assert (0 ≤ n < 16 ^ Z.of_nat 4) as Hn4 by (change (16 ^ Z.of_nat 4) with 65536; lia).
    pose proof (hex_digits_length (S (Z.to_nat (Z.log2 n))) n [] 4
                  ltac:(lia) Hn4) as Hlen.
    change (length (@nil Z)) with 0%nat in Hlen. lia.
Qed.

Lemma get_char_description_single c :
  get_char_description [c] = Ok (char_description c).
Proof.
  unfold get_char_description, unicodedata_name, char_description. simpl.
  destruct (unicode_names c) as [name|]; done.
Qed.

(** X4: [get_char_description] on one character returns the character,
    its code point and, when the character has one, its name (a
    character without a name is described without one, not an error);
    on any other string it raises [TypeError]. *)
Theorem get_char_description_cases (char : pystr) :
  match char with
  | [c] => get_char_description char = Ok (char_description c)
  | _ => get_char_description char = Raise TypeError
  end.
Proof.
  destruct char as [|c [|c' s]]; [done| |done].
  apply get_char_description_single.
Qed.

End description.

(** * More on the font loader *)

Section loader_more.

Lemma loads_app calls1 calls2 st :
  loads (calls1 ++ calls2) st = loads calls2 (loads calls1 st).
Proof.
  revert st. induction calls1 as [|[w p] rest IH]; intros st; [done|].
  simpl. apply IH.
Qed.

Lemma loads_wf calls st : cache_wf st → cache_wf (loads calls st).
Proof.
  revert st. induction calls as [|[w p] rest IH]; intros st Hwf; [done|].
  simpl. by apply IH, load_font_wf.
Qed.

(** A call reads the file exactly when the path has no entry. *)
Lemma load_font_reads w p st :
  reads (load_font w p st).2
  = reads st ++ match cache_get p (cache st) with
                | Some _ => []
                | None => [p]
                end.
Proof.
  destruct (cache_get p (cache st)) as [v|] eqn:Hg.
  - rewrite (load_font_hit w p st v Hg). simpl. by rewrite app_nil_r.
  - destruct (load_font_miss w p st Hg) as (r & st1 & _ & _ & Hr & _ & _ & ->).
    done.
Qed.

Lemma load_font_keys w p st k :
  k ∈ (cache (load_font w p st).2).*1 → k = p ∨ k ∈ (cache st).*1.
Proof.
  destruct (cache_get p (cache st)) as [v|] eqn:Hg.
  - rewrite (load_font_hit w p st v Hg).
    change (cache (Return v, set_cache (cache_touch p v (cache st)) st).2)
      with ((p, v) :: filter (λ kv, kv.1 ≠ p) (cache st)).
    rewrite fmap_cons. intros [->|Hk]%elem_of_cons; [by left|right].
    by apply keys_filter in Hk.
  - destruct (load_font_miss w p st Hg) as (r & st1 & _ & _ & _ & _ & _ & ->).
    change (cache (Return r, set_cache (cache_put p r (cache st)) st1).2)
      with (cache_put p r (cache st)).
    unfold cache_put. rewrite fmap_cons.
    intros [->|Hk]%elem_of_cons; [by left|right].
    case_decide; [|done]. eapply keys_sublist; [apply removelast_sublist|done].
Qed.

Lemma loads_keys calls st k :
  k ∈ (cache (loads calls st)).*1 → k ∈ (cache st).*1 ∨ k ∈ calls.*2.
Proof.
  revert st. induction calls as [|[w p] rest IH]; intros st Hk.
  - by left.
  - simpl in Hk. apply IH in Hk as [Hk|Hk].
    + apply load_font_keys in Hk as [->|Hk]; [right|by left].
      rewrite fmap_cons. apply list_elem_of_here.
    + right. rewrite fmap_cons. by apply list_elem_of_further.
Qed.

(** X6: the cache stays within its bounds: after any run of calls from
    a well-formed cache (the empty one, say) it holds at most 512
    entries, at most one per path, and only for paths that were there
    before or were asked for. *)
Theorem loads_cache_bounded (calls : list (world * pystr)) (st : state) :
  cache_wf st →
  NoDup (cache (loads calls st)).*1
  ∧ (length (cache (loads calls st)) ≤ 512)%nat
  ∧ (∀ k, k ∈ (cache (loads calls st)).*1 → k ∈ (cache st).*1 ∨ k ∈ calls.*2).
Proof.
  intros Hwf. destruct (loads_wf calls st Hwf) as [Hn Hlen].
  split; [done|]. split; [done|]. apply loads_keys.
Qed.

(** One more call, for [p] itself or for a path of [D], leaves the
    entry of [p] in the cache, with the value it has. *)
Lemma entry_cached_step p v D st w q :
  (size D < maxsize)%nat →
  entry_cached p v D st →
  q = p ∨ q ∈ D →
  entry_cached p v D (load_font w q st).2.
Proof.
  intros Hsize (Hwf & pre & post & Hc & Hp & Hsub) Hq.
  split; [by apply load_font_wf|].
  destruct (decide (q = p)) as [->|Hne].
  - rewrite (load_font_hit w p st v); [|rewrite Hc; by apply cache_get_middle].
    simpl. unfold cache_touch. exists [], (filter (λ kv, kv.1 ≠ p) (cache st)).
    split; [done|]. split; [apply not_elem_of_nil|]. intros k Hk.
    by apply elem_of_nil in Hk.
  - destruct Hq as [?|HqD]; [done|].
    destruct (cache_get q (cache st)) as [v'|] eqn:Hg.
    + rewrite (load_font_hit w q st v' Hg). simpl. unfold cache_touch.
      rewrite Hc, filter_app, filter_cons_True by (simpl; congruence).
      exists ((q, v') :: filter (λ kv, kv.1 ≠ q) pre), (filter (λ kv, kv.1 ≠ q) post).
      split; [done|]. split.
      * rewrite fmap_cons. apply not_elem_of_cons. split; [done|].
        intros Hk. apply Hp. by apply keys_filter in Hk.
      * intros k Hk. rewrite fmap_cons in Hk.
        apply elem_of_cons in Hk as [->|Hk]; [done|].
        apply Hsub. by apply keys_filter in Hk.
    + destruct (load_font_miss w q st Hg) as (r & st1 & _ & _ & _ & _ & _ & ->).
      simpl. unfold cache_put.
      assert (∀ k, k ∈ ((q, r) :: pre).*1 → k ∈ D) as Hsub'.
      { intros k Hk. rewrite fmap_cons in Hk.
        apply elem_of_cons in Hk as [->|Hk]; [done|by apply Hsub]. }
      assert (p ∉ ((q, r) :: pre).*1) as Hp'.
      { rewrite fmap_cons. apply not_elem_of_cons. by split. }
      case_decide as Hfull.
      * destruct post as [|x post'].
        { exfalso. destruct Hwf as [Hn _].
          apply cache_get_None in Hg. rewrite Hc in Hg, Hn, Hfull.
          rewrite fmap_app in Hg, Hn. apply NoDup_app in Hn as (Hn & _ & _).
          assert (NoDup ((q, r) :: pre).*1) as Hn'.
          { rewrite fmap_cons. apply NoDup_cons. split; [|done].
            intros Hk. apply Hg. apply elem_of_app. by left. }
          pose proof (NoDup_subseteq_size _ D Hn' Hsub') as Hle.
          rewrite length_fmap in Hle. rewrite length_app in Hfull.
          simpl in Hle, Hfull. lia. }
        rewrite Hc, removelast_app by done.
        exists ((q, r) :: pre), (removelast (x :: post')).
        split; [done|]. by split.
      * exists ((q, r) :: pre), post. rewrite Hc. split; [done|]. by split.
Qed.

Lemma entry_cached_loads p v D calls st :
  (size D < maxsize)%nat →
  entry_cached p v D st →
  (∀ q, q ∈ calls.*2 → q = p ∨ q ∈ D) →
  entry_cached p v D (loads calls st).
Proof.
  intros Hsize. revert st. induction calls as [|[w q] rest IH]; intros st Hinv Hq.
  - done.
  - simpl. apply IH.
    + apply entry_cached_step; [done|done|]. apply Hq. rewrite fmap_cons. left.
    + intros q' Hq'. apply Hq. rewrite fmap_cons. by right.
Qed.

Lemma entry_cached_first w p D st :
  cache_wf st →
  ∃ r st', load_font w p st = (Return r, st') ∧ entry_cached p r D st'.
Proof.
  intros Hwf. pose proof (load_font_wf w p st Hwf) as Hwf'.
  destruct (load_font_front w p st) as (r & st' & rest & Heq & Hc).
  rewrite Heq in Hwf'. exists r, st'. split; [done|]. split; [done|].
  exists [], rest. split; [done|]. split; [apply not_elem_of_nil|].
  intros k Hk. by apply elem_of_nil in Hk.
Qed.

Lemma entry_cached_get p v D st :
  entry_cached p v D st → cache_get p (cache st) = Some v.
Proof. intros (_ & pre & post & -> & Hp & _). by apply cache_get_middle. Qed.

Lemma other_paths_spec p calls q :
  q ∈ calls.*2 → q = p ∨ q ∈ other_paths p calls.
Proof.
  intros Hq. destruct (decide (q = p)) as [->|Hne]; [by left|right].
  unfold other_paths. apply elem_of_difference. split.
  - by apply elem_of_list_to_set.
  - by apply not_elem_of_singleton.
Qed.

(** X7: what a call returned stays cached, success or failure: as long
    as fewer than 512 distinct other paths are loaded in between, a
    later call for the path returns the very same value (the same
    object) and reads no file, whatever the file holds by then. *)
Theorem load_font_entry_kept (w0 w' : world) (p : pystr) (st : state)
    (calls : list (world * pystr)) :
  cache_wf st →
  (size (other_paths p calls) < maxsize)%nat →
  let first := load_font w0 p st in
  let later := load_font w' p (loads calls first.2) in
  later.1 = first.1 ∧ reads later.2 = reads (loads calls first.2).
Proof.
  intros Hwf Hsize.
  destruct (entry_cached_first w0 p (other_paths p calls) st Hwf)
    as (r & st' & Heq & Hinv).
  simpl. rewrite Heq. simpl.
  pose proof (entry_cached_loads p r _ calls st' Hsize Hinv
                (other_paths_spec p calls)) as Hinv'.
  apply entry_cached_get in Hinv'.
  by rewrite (load_font_hit w' p _ r Hinv').
Qed.

End loader_more.

(** * Reads of the font loader *)

Section loader_reads.

Lemma loads_reads_sublist calls st :
  ∃ l, reads (loads calls st) = reads st ++ l ∧ l `sublist_of` calls.*2.
Proof.
  revert st. induction calls as [|[w p] rest IH]; intros st.
  - exists []. by rewrite app_nil_r.
  - simpl. destruct (IH (load_font w p st).2) as (l & -> & Hsub).
    rewrite load_font_reads, <- app_assoc.
    eexists. split; [done|].
    destruct (cache_get p (cache st)); simpl.
    + by apply sublist_cons.
    + by apply sublist_skip.
Qed.

Lemma size_other_paths_lt (q : pystr) (calls : list (world * pystr)) (S : gset pystr) :
  q ∈ S → (∀ k, k ∈ calls.*2 → k ∈ S) → (size S ≤ maxsize)%nat →
  (size (other_paths q calls) < maxsize)%nat.
Proof.
  intros Hq Hsub Hsize.
  assert ({[q]} ∪ other_paths q calls ⊆ S) as Hsubset.
  { intros k [->%elem_of_singleton|Hk]%elem_of_union; [done|].
    unfold other_paths in Hk. apply elem_of_difference in Hk as [Hk _].
    apply Hsub. by apply elem_of_list_to_set in Hk. }
  apply subseteq_size in Hsubset.
  rewrite size_union, size_singleton in Hsubset; [lia|].
  apply elem_of_disjoint. intros k Hk1 Hk2. unfold other_paths in Hk2.
  apply elem_of_difference in Hk2 as [_ Hk2]. done.
Qed.

(** With at most [maxsize] distinct paths in play nothing is evicted,
    and no file is read twice. *)
Lemma loads_read_once_aux calls st :
  cache_wf st →
  (size (list_to_set (C:=gset pystr) (calls.*2)) ≤ maxsize)%nat →
  ∃ l, reads (loads calls st) = reads st ++ l
       ∧ NoDup l ∧ l `sublist_of` calls.*2.
Proof.
  intros Hwf. induction calls as [|[w q] calls IH] using rev_ind; intros Hsize.
  - exists []. rewrite app_nil_r. split; [done|]. split; [constructor|done].
  - assert (∀ k, k ∈ calls.*2 →
              k ∈ list_to_set (C:=gset pystr) ((calls ++ [(w, q)]).*2)) as Hin.
    { intros k Hk. apply elem_of_list_to_set. rewrite fmap_app.
      apply elem_of_app. by left. }
    assert (q ∈ list_to_set (C:=gset pystr) ((calls ++ [(w, q)]).*2)) as Hq.
    { apply elem_of_list_to_set. rewrite fmap_app. apply elem_of_app. right.
      apply list_elem_of_here. }
    destruct IH as (l & Hl & Hnd & Hsub).
    { etransitivity; [|exact Hsize]. apply subseteq_size.
      intros k Hk. apply Hin. by apply elem_of_list_to_set in Hk. }
    rewrite loads_app. simpl. rewrite load_font_reads, Hl, <- app_assoc.
    eexists. split; [done|]. rewrite fmap_app. simpl.
    destruct (cache_get q (cache (loads calls st))) as [v|] eqn:Hg.
    + rewrite app_nil_r. split; [done|]. by apply sublist_inserts_r.
    + split; [|by apply sublist_app].
      apply NoDup_app. split; [done|]. split; [|apply NoDup_singleton].
      intros k Hk ->%list_elem_of_singleton.
      assert (q ∈ calls.*2) as Hqc by (by eapply elem_of_sublist).
      apply list_elem_of_fmap in Hqc as ([w' q'] & Heq & Hqc). simpl in Heq. subst q'.
      apply list_elem_of_split in Hqc as (c1 & c2 & ->).
      rewrite loads_app in Hg. simpl in Hg.
      destruct (entry_cached_first w' q (other_paths q c2) (loads c1 st))
        as (r & st' & Heq & Hinv); [by apply loads_wf|].
      rewrite Heq in Hg. simpl in Hg.
      assert (size (other_paths q c2) < maxsize)%nat as Hlt.
      { eapply size_other_paths_lt; [exact Hq| |done].
        intros k' Hk'. apply Hin. rewrite fmap_app, fmap_cons.
        apply elem_of_app. right. by apply list_elem_of_further. }
      pose proof (entry_cached_loads q r _ c2 st' Hlt Hinv
                    (other_paths_spec q c2)) as Hinv'.
      apply entry_cached_get in Hinv'. congruence.
Qed.

(** X8: with at most 512 distinct paths in play, no file is read
    twice: in any run of calls from a well-formed cache the paths
    handed to [TTFont] are pairwise distinct and come, in order, from
    the calls. *)
Theorem loads_read_once (calls : list (world * pystr)) (st : state) :
  cache_wf st →
  (size (list_to_set (C:=gset pystr) (calls.*2)) ≤ maxsize)%nat →
  ∃ l, reads (loads calls st) = reads st ++ l
       ∧ NoDup l ∧ l `sublist_of` calls.*2.
Proof. apply loads_read_once_aux. Qed.

Lemma load_font_agrees w p st :
  cache_agrees w st →
  ∃ r st', load_font w p st = (Return r, st')
           ∧ val <$> r = parsed w p
           ∧ cache_agrees w st'.
Proof.
  intros Hag. destruct (cache_get p (cache st)) as [v|] eqn:Hg.
  - rewrite (load_font_hit w p st v Hg). do 2 eexists. split; [done|].
    apply cache_get_Some in Hg. split; [by apply Hag|].
    intros k v' Hin. simpl in Hin. unfold cache_touch in Hin.
    apply elem_of_cons in Hin as [[= -> ->]|Hin]; [by apply Hag|].
    apply list_elem_of_filter in Hin as [_ Hin]. by apply Hag.
  - destruct (load_font_miss w p st Hg) as (r & st1 & Hb & _ & _ & _ & _ & ->).
    assert (val <$> r = parsed w p) as Hr.
    { rewrite load_font_body_eq in Hb. unfold parsed.
      destruct (TTFont_open w p); by inversion Hb. }
    do 2 eexists. split; [done|]. split; [done|].
    intros k v' Hin. simpl in Hin. unfold cache_put in Hin.
    apply elem_of_cons in Hin as [[= -> ->]|Hin]; [done|].
    apply Hag. case_decide; [|done].
    eapply elem_of_sublist; [done|apply removelast_sublist].
Qed.

Lemma loads_agrees w font_paths st :
  cache_agrees w st → cache_agrees w (loads (scan_calls w font_paths) st).
Proof.
  revert st. induction font_paths as [|p rest IH]; intros st Hag; [done|].
  simpl. apply IH.
  destruct (load_font_agrees w p st Hag) as (r & st' & -> & _ & Hag'). done.
Qed.

Lemma cache_agrees_init w : cache_agrees w init_state.
Proof. intros p v Hin. by apply elem_of_nil in Hin. Qed.

(** X9: the cache does not change what the loader answers while the
    files stay as they are: after any calls against the same files, from
    the empty cache, [load_font] returns [None] exactly when the file
    does not parse, and otherwise an object with the tables the file
    parses to, whether the answer comes from the cache or from a new
    read. *)
Theorem load_font_stable (w : world) (font_paths : list pystr) (p : pystr) :
  ∃ r st', load_font w p (loads (scan_calls w font_paths) init_state)
           = (Return r, st')
           ∧ val <$> r = parsed w p.
Proof.
  destruct (load_font_agrees w p (loads (scan_calls w font_paths) init_state))
    as (r & st' & Heq & Hr & _).
  - apply loads_agrees, cache_agrees_init.
  - by exists r, st'.
Qed.

End loader_reads.

(** * More on the driver *)

Section driver_more.
Context `{FontLib}.

(** [load_font] reads and writes the cache, the log of reads and the
    object counter, and nothing else. *)
Lemma load_font_view w p st1 st2 :
  loader_view st1 = loader_view st2 →
  (load_font w p st1).1 = (load_font w p st2).1
  ∧ loader_view (load_font w p st1).2 = loader_view (load_font w p st2).2.
Proof.
  destruct st1 as [c1 r1 n1 o1 k1], st2 as [c2 r2 n2 o2 k2].
  unfold loader_view. simpl. intros [= -> -> ->].
  unfold load_font, lru_cache. simpl.
  destruct (cache_get p c2) as [v|] eqn:Hg; [done|].
  rewrite !load_font_body_eq. simpl.
  destruct (TTFont_open w p); simpl; rewrite Hg; done.
Qed.

Lemma loads_view calls st1 st2 :
  loader_view st1 = loader_view st2 →
  loader_view (loads calls st1) = loader_view (loads calls st2).
Proof.
  revert st1 st2. induction calls as [|[w p] rest IH]; intros st1 st2 Hv; [done|].
  simpl. apply IH. by apply load_font_view.
Qed.

Lemma load_font_out w p st :
  stdout (load_font w p st).2 = stdout st
  ∧ walked (load_font w p st).2 = walked st.
Proof.
  destruct (cache_get p (cache st)) as [v|] eqn:Hg.
  - by rewrite (load_font_hit w p st v Hg).
  - destruct (load_font_miss w p st Hg) as (r & st1 & _ & _ & _ & Ho & Hw & ->).
    done.
Qed.

Lemma cache_agrees_view w st1 st2 :
  loader_view st1 = loader_view st2 → cache_agrees w st2 → cache_agrees w st1.
Proof.
  unfold loader_view. intros [= Hc _ _] Hag p v Hin. apply Hag. by rewrite <- Hc.
Qed.

Lemma scan_calls_paths w font_paths : (scan_calls w font_paths).*2 = font_paths.
Proof.
  unfold scan_calls. induction font_paths as [|p rest IH]; [done|].
  rewrite !fmap_cons. simpl. by rewrite IH.
Qed.

Lemma prefix_sublist {A} (l1 l2 : list A) : l1 `prefix_of` l2 → l1 `sublist_of` l2.
Proof. intros [k ->]. by apply sublist_inserts_r. Qed.

Lemma char_in_font_covers w c p font :
  parsed w p = Some (Sound font) → char_in_font [c] font = Ok (covers w c p).
Proof.
  intros Hp. unfold covers, char_in_font. rewrite Hp.
  destruct (table_cmap font) as [tables|]; [|done].
  apply char_in_font_loop_char.
Qed.

Lemma get_font_name_display w p f :
  parsed w p = Some f → get_font_name_object f = Ok (display_name w p).
Proof.
  intros Hp. unfold display_name. rewrite Hp. unfold get_font_name_object.
  by destruct (get_font_name_returns (tables_of f)) as [name ->].
Qed.

Lemma covers_iff w c p :
  covers w c p = true ↔ ∃ font, parsed w p = Some (Sound font) ∧ has_entry font c.
Proof.
  unfold covers. destruct (parsed w p) as [[font|e font]|].
  - destruct (table_cmap font) as [tables|] eqn:Ht.
    + rewrite (existsb_entry font c tables Ht). split.
      * intros He. by exists font.
      * by intros (font' & [= <-] & He).
    + split; [done|]. intros (font' & [= <-] & He).
      by apply has_entry_no_cmap in He.
  - split; [done|]. by intros (font' & Heq & _).
  - split; [done|]. by intros (font' & Heq & _).
Qed.

(** The scan of the font paths for one character, however it ends: it
    loads a prefix of the paths, all of them if it returns; it only adds
    to the output; it walks nothing and does not exit. *)
Lemma find_fonts_loop_any w c font_paths found st :
  ∃ out st' pre lines,
    find_fonts_loop w [c] font_paths found st = (out, st')
    ∧ walked st' = walked st
    ∧ stdout st' = stdout st ++ lines
    ∧ pre `prefix_of` font_paths
    ∧ loader_view st' = loader_view (loads (scan_calls w pre) st)
    ∧ (∀ code, out ≠ SystemExit code)
    ∧ (∀ b, out = Return b → pre = font_paths).
Proof.
  revert found st. induction font_paths as [|p rest IH]; intros found st.
  - exists (Return found), st, [], []. rewrite app_nil_r. by repeat split.
  - cbn [find_fonts_loop]. unfold mbind, M_bind.
    destruct (load_font_returns w p st) as (r & st1 & Heq). rewrite Heq.
    destruct (load_font_out w p st) as [Ho Hw]. rewrite Heq in Ho, Hw.
    cbn [snd] in Ho, Hw.
    assert (loads (scan_calls w [p]) st = st1) as Hone.
    { cbn [scan_calls fmap list_fmap loads]. by rewrite Heq. }
    assert (∀ pre', loads (scan_calls w (p :: pre')) st
                    = loads (scan_calls w pre') st1) as Hcons.
    { intros pre'. cbn [scan_calls fmap list_fmap loads]. by rewrite Heq. }
    assert (∀ found' st2,
              walked st2 = walked st1 → (∃ l, stdout st2 = stdout st ++ l) →
              loader_view st2 = loader_view st1 →
              ∃ out st' pre lines,
                find_fonts_loop w [c] rest found' st2 = (out, st')
                ∧ walked st' = walked st
                ∧ stdout st' = stdout st ++ lines
                ∧ pre `prefix_of` p :: rest
                ∧ loader_view st' = loader_view (loads (scan_calls w pre) st)
                ∧ (∀ code, out ≠ SystemExit code)
                ∧ (∀ b, out = Return b → pre = p :: rest)) as Hnext.
    { intros found' st2 Hw2 [l Ho2] Hv2.
      destruct (IH found' st2) as (out & st' & pre & lines & -> & Hw' & Ho' & Hp & Hv & Hx & Hr).
      exists out, st', (p :: pre), (l ++ lines). split; [done|].
      split; [by rewrite Hw', Hw2, Hw|].
      split; [by rewrite Ho', Ho2, <- app_assoc|].
      split; [by apply prefix_cons|].
      split; [rewrite Hcons, Hv; by apply loads_view|].
      split; [done|]. intros b Hb. by rewrite (Hr b Hb). }
    assert (∀ e, ∃ out st' pre lines,
              (Raised e : outcome bool, st1) = (out, st')
              ∧ walked st' = walked st
              ∧ stdout st' = stdout st ++ lines
              ∧ pre `prefix_of` p :: rest
              ∧ loader_view st' = loader_view (loads (scan_calls w pre) st)
              ∧ (∀ code, out ≠ SystemExit code)
              ∧ (∀ b, out = Return b → pre = p :: rest)) as Hstop.
    { intros e. exists (Raised e), st1, [p], []. rewrite app_nil_r, Hone.
      split; [done|]. split; [done|]. split; [done|].
      split; [apply prefix_cons, prefix_nil|]. by repeat split. }
    destruct r as [f|].
    + unfold lift. destruct (char_in_font_object [c] (val f)) as [b|e]; [|apply Hstop].
      destruct b.
      * unfold get_font_name_object.
        destruct (get_font_name_returns (tables_of (val f))) as [name ->].
        unfold print.
        destruct (encodable w (py "  " ++ name ++ [32; 8594; 32] ++ p)); [|apply Hstop].
        apply Hnext; [done| |done]. cbn [stdout]. rewrite Ho. by eexists.
      * apply Hnext; [done| |done]. rewrite Ho. exists []. by rewrite app_nil_r.
    + apply Hnext; [done| |done]. rewrite Ho. exists []. by rewrite app_nil_r.
Qed.

(** With a cache that agrees with the files, cmap tables that
    decompile and lines that stdout can encode, the scan returns and
    prints the lines of the fonts that have the character. *)
Lemma find_fonts_loop_spec w c font_paths found st :
  cache_agrees w st →
  cmaps_decompile w font_paths →
  Forall (λ text, encodable w text = true)
    (result_line w <$> filter (λ p, covers w c p = true) font_paths) →
  ∃ st',
    find_fonts_loop w [c] font_paths found st
    = (Return match result_line w <$> filter (λ p, covers w c p = true) font_paths with
              | [] => found
              | _ => true
              end, st')
    ∧ stdout st'
      = stdout st ++ (result_line w <$> filter (λ p, covers w c p = true) font_paths)
    ∧ loader_view st' = loader_view (loads (scan_calls w font_paths) st).
Proof.
  revert found st. induction font_paths as [|p rest IH]; intros found st Hag Hdec Henc.
  - exists st. simpl. by rewrite app_nil_r.
  - cbn [find_fonts_loop]. unfold mbind, M_bind.
    destruct (load_font_agrees w p st Hag) as (r & st1 & Heq & Hr & Hag1).
    rewrite Heq.
    destruct (load_font_out w p st) as [Ho _]. rewrite Heq in Ho. cbn [snd] in Ho.
    assert (∀ st2, loader_view st2 = loader_view st1 →
              loader_view (loads (scan_calls w rest) st2)
              = loader_view (loads (scan_calls w (p :: rest)) st)) as Hcons.
    { intros st2 Hv. cbn [scan_calls fmap list_fmap loads]. rewrite Heq.
      by apply loads_view. }
    assert (cmaps_decompile w rest) as Hdec'.
    { intros q e font Hq. apply Hdec. by apply list_elem_of_further. }
    destruct r as [f|].
    + simpl in Hr. symmetry in Hr. destruct (val f) as [font|e font] eqn:Hval.
      2:{ exfalso. apply (Hdec p e font); [apply list_elem_of_here|done]. }
      unfold lift. cbn [char_in_font_object].
      rewrite (char_in_font_covers w c p font Hr).
      destruct (covers w c p) eqn:Hc.
      * rewrite filter_cons_True in Henc |- * by done.
        rewrite fmap_cons in Henc |- *. apply Forall_cons in Henc as [He Henc].
        rewrite (get_font_name_display w p _ Hr).
        fold (result_line w p). rewrite print_encodable by done.
        match goal with
        | |- context [find_fonts_loop w [c] rest true ?s] =>
            destruct (IH true s) as (st' & -> & Hout & Hv); [done|done|done|];
            assert (loader_view s = loader_view st1) as Hvs by done
        end.
        exists st'. split; [by destruct (result_line w <$> filter _ rest)|].
        split; [cbn [stdout] in Hout; by rewrite Hout, Ho, <- app_assoc|].
        rewrite Hv. by apply Hcons.
      * rewrite filter_cons_False in Henc |- * by (rewrite Hc; done).
        destruct (IH found st1) as (st' & -> & Hout & Hv); [done|done|done|].
        exists st'. split; [done|]. split; [by rewrite Hout, Ho|].
        rewrite Hv. by apply Hcons.
    + simpl in Hr.
      assert (covers w c p = false) as Hc by (unfold covers; by rewrite <- Hr).
      rewrite filter_cons_False in Henc |- * by (rewrite Hc; done).
      destruct (IH found st1) as (st' & -> & Hout & Hv); [done|done|done|].
      exists st'. split; [done|]. split; [by rewrite Hout, Ho|].
      rewrite Hv. by apply Hcons.
Qed.

Lemma find_fonts_for_char_raises w char font_paths st :
  length char ≠ 1%nat →
  find_fonts_for_char w char font_paths st = (Raised TypeError, st).
Proof.
  intros Hlen. unfold find_fonts_for_char, mbind, M_bind.
  by rewrite get_char_description_not_char.
Qed.

(** A query, whatever its argument and however it ends. *)
Lemma find_fonts_for_char_any w char font_paths st :
  ∃ out st' pre lines,
    find_fonts_for_char w char font_paths st = (out, st')
    ∧ walked st' = walked st
    ∧ stdout st' = stdout st ++ lines
    ∧ pre `prefix_of` font_paths
    ∧ loader_view st' = loader_view (loads (scan_calls w pre) st)
    ∧ (∀ code, out ≠ SystemExit code)
    ∧ (out = Return tt → pre = font_paths).
Proof.
  assert (∀ e, ∃ out st' pre lines,
            (Raised e : outcome unit, st) = (out, st')
            ∧ walked st' = walked st
            ∧ stdout st' = stdout st ++ lines
            ∧ pre `prefix_of` font_paths
            ∧ loader_view st' = loader_view (loads (scan_calls w pre) st)
            ∧ (∀ code, out ≠ SystemExit code)
            ∧ (out = Return tt → pre = font_paths)) as Hstop.
  { intros e. exists (Raised e), st, [], []. rewrite app_nil_r.
    split; [done|]. split; [done|]. split; [done|].
    split; [apply prefix_nil|]. by repeat split. }
  destruct (decide (length char = 1%nat)) as [Hlen|Hlen].
  2:{ rewrite find_fonts_for_char_raises by done. apply Hstop. }
  destruct char as [|c [|c' s]]; simpl in Hlen; try done.
  unfold find_fonts_for_char, mbind, M_bind.
  rewrite get_char_description_single. unfold lift. cbv beta iota.
  unfold print at 1.
  destruct (encodable w ([10] ++ py "Searching for: " ++ char_description c));
    [|apply Hstop].
  rewrite print_ascii by done.
  match goal with
  | |- context [find_fonts_loop w [c] font_paths false ?s] =>
      destruct (find_fonts_loop_any w c font_paths false s)
        as (out & st1 & pre & lines & -> & Hw & Ho & Hp & Hv & Hx & Hr);
      assert (loader_view s = loader_view st) as Hvs by done
  end.
  cbn [walked stdout] in Hw, Ho.
  assert (loader_view st1 = loader_view (loads (scan_calls w pre) st)) as Hv'.
  { rewrite Hv. by apply loads_view. }
  destruct out as [b|e|code].
  - specialize (Hr b eq_refl). destruct b; unfold mret, M_ret; cbv beta iota.
    + exists (Return tt), st1, pre, ([[10] ++ py "Searching for: " ++ char_description c;
                                       replicate 70 45] ++ lines).
      split; [done|]. split; [done|].
      split; [rewrite Ho, <- !app_assoc; done|]. by repeat split.
    + rewrite print_ascii by done.
      eexists (Return tt), _, pre,
        ([[10] ++ py "Searching for: " ++ char_description c; replicate 70 45]
         ++ lines ++ [py "  No fonts found containing this character."]).
      split; [done|]. split; [done|].
      split; [cbn [stdout]; rewrite Ho, <- !app_assoc; done|]. by repeat split.
  - exists (Raised e), st1, pre, ([[10] ++ py "Searching for: " ++ char_description c;
                                    replicate 70 45] ++ lines).
    split; [done|]. split; [done|].
    split; [rewrite Ho, <- !app_assoc; done|]. by repeat split.
  - by destruct (Hx code).
Qed.

Lemma find_fonts_for_char_spec w c font_paths st :
  cache_agrees w st →
  cmaps_decompile w font_paths →
  report_encodable w c font_paths →
  ∃ st',
    find_fonts_for_char w [c] font_paths st = (Return tt, st')
    ∧ stdout st' = stdout st ++ report w c font_paths
    ∧ loader_view st' = loader_view (loads (scan_calls w font_paths) st).
Proof.
  intros Hag Hdec Henc. unfold report_encodable, report in Henc.
  apply Forall_app in Henc as [Hhead Hlines].
  apply Forall_cons in Hhead as [Hhead _].
  assert (Forall (λ text, encodable w text = true)
            (result_line w <$> filter (λ p, covers w c p = true) font_paths)) as Hl.
  { destruct (result_line w <$> filter _ font_paths); [constructor|done]. }
  unfold find_fonts_for_char, mbind, M_bind.
  rewrite get_char_description_single. unfold lift. cbv beta iota.
  rewrite print_encodable by done. rewrite print_ascii by done.
  match goal with
  | |- context [find_fonts_loop w [c] font_paths false ?s] =>
      destruct (find_fonts_loop_spec w c font_paths false s)
        as (st1 & -> & Hout & Hv); [done|done|done|];
      assert (loader_view s = loader_view st) as Hvs by done
  end.
  cbn [stdout] in Hout.
  assert (loader_view st1 = loader_view (loads (scan_calls w font_paths) st)) as Hv'.
  { rewrite Hv. by apply loads_view. }
  unfold report.
  destruct (result_line w <$> filter _ font_paths) as [|line lines] eqn:Hres;
    unfold mret, M_ret; cbv beta iota.
  - rewrite print_ascii by done. eexists. split; [done|]. split; [|done].
    cbn [stdout]. rewrite Hout, <- !app_assoc. done.
  - exists st1. split; [done|]. split; [|done].
    rewrite Hout, <- !app_assoc. done.
Qed.

(** X10: the answer to a query: for one character, with a cache that
    agrees with the files, font files whose cmap tables decompile and a
    report that stdout can encode, [find_fonts_for_char] ends normally
    and prints the heading, a rule and one line, name and path, for each
    path of [font_paths], in their order, whose file parses to a font
    with a Unicode-capable table entry for the character, or else the
    line that no font was found; the cache still agrees with the
    files. *)
Theorem find_fonts_for_char_report (w : world) (c : Z) (font_paths : list pystr)
    (st : state) :
  cache_agrees w st →
  cmaps_decompile w font_paths →
  report_encodable w c font_paths →
  (∃ st', find_fonts_for_char w [c] font_paths st = (Return tt, st')
          ∧ stdout st' = stdout st ++ report w c font_paths
          ∧ cache_agrees w st')
  ∧ (∀ p, covers w c p = true
          ↔ ∃ font, parsed w p = Some (Sound font) ∧ has_entry font c).
Proof.
  intros Hag Hdec Henc. split; [|apply covers_iff].
  destruct (find_fonts_for_char_spec w c font_paths st Hag Hdec Henc)
    as (st' & Heq & Hout & Hv).
  exists st'. split; [done|]. split; [done|].
  apply (cache_agrees_view w _ _ Hv). by apply loads_agrees.
Qed.

(** X11: an argument that is not one character is refused before
    anything happens: [find_fonts_for_char] raises [TypeError] and
    leaves the state as it was, with nothing printed and no font
    loaded. *)
Theorem find_fonts_for_char_not_char (w : world) (char : pystr)
    (font_paths : list pystr) (st : state) :
  length char ≠ 1%nat →
  find_fonts_for_char w char font_paths st = (Raised TypeError, st).
Proof. apply find_fonts_for_char_raises. Qed.

(** X12: a query reads only font files of its list: the paths it
    hands to [TTFont] form a sub-sequence of the list (at most one read
    for each element, in the order of the list); and it walks no
    directory, whatever its argument. *)
Theorem find_fonts_for_char_reads (w : world) (char : pystr)
    (font_paths : list pystr) (st : state) :
  ∃ l, reads (find_fonts_for_char w char font_paths st).2 = reads st ++ l
       ∧ l `sublist_of` font_paths
       ∧ walked (find_fonts_for_char w char font_paths st).2 = walked st.
Proof.
  destruct (find_fonts_for_char_any w char font_paths st)
    as (out & st' & pre & lines & -> & Hw & _ & Hp & Hv & _).
  destruct (loads_reads_sublist (scan_calls w pre) st) as (l & Hl & Hsub).
  exists l. rewrite scan_calls_paths in Hsub. split; [|split; [|done]].
  - unfold loader_view in Hv. injection Hv as _ Hr _. cbn [snd]. by rewrite Hr.
  - etransitivity; [exact Hsub|]. by apply prefix_sublist.
Qed.

(** The queries of a run, however it ends: [j] scans of the font
    paths were completed and a further one stopped after the paths
    [pre]; a run that returns completed one scan for each argument. *)
Lemma main_loop_any w chars font_paths st :
  ∃ out st' j pre lines,
    main_loop w chars font_paths st = (out, st')
    ∧ walked st' = walked st
    ∧ stdout st' = stdout st ++ lines
    ∧ pre `prefix_of` font_paths
    ∧ (j ≤ length chars)%nat
    ∧ loader_view st'
      = loader_view (loads (concat (replicate j (scan_calls w font_paths))
                            ++ scan_calls w pre) st)
    ∧ (∀ code, out ≠ SystemExit code)
    ∧ (out = Return tt → j = length chars ∧ pre = []).
Proof.
  revert st. induction chars as [|char rest IH]; intros st.
  - exists (Return tt), st, 0%nat, [], []. rewrite app_nil_r.
    split; [done|]. split; [done|]. split; [done|]. split; [apply prefix_nil|].
    by repeat split.
  - cbn [main_loop]. unfold mbind, M_bind.
    destruct (find_fonts_for_char_any w char font_paths st)
      as (out1 & st1 & pre1 & lines1 & -> & Hw1 & Ho1 & Hp1 & Hv1 & Hx1 & Hr1).
    destruct out1 as [[]|e|code].
    + specialize (Hr1 eq_refl). subst pre1.
      destruct (IH st1)
        as (out & st' & j & pre & lines & -> & Hw & Ho & Hp & Hj & Hv & Hx & Hr).
      exists out, st', (S j), pre, (lines1 ++ lines).
      split; [done|]. split; [by rewrite Hw|].
      split; [by rewrite Ho, Ho1, <- app_assoc|].
      split; [done|]. split; [simpl; lia|].
      split.
      { cbn [replicate concat]. rewrite <- app_assoc, loads_app, Hv.
        by apply loads_view. }
      split; [done|]. intros Hout. by destruct (Hr Hout) as [-> ->].
    + exists (Raised e), st1, 0%nat, pre1, lines1.
      split; [done|]. split; [done|]. split; [done|]. split; [done|].
      split; [lia|]. by repeat split.
    + by destruct (Hx1 code).
Qed.

Lemma query_calls_rounds w cs font_paths :
  query_calls w cs font_paths
  = concat (replicate (length cs) (scan_calls w font_paths)).
Proof.
  unfold query_calls. induction cs as [|c cs IH]; [done|].
  rewrite fmap_cons. cbn [length replicate concat]. by rewrite IH.
Qed.

Lemma main_loop_spec w cs font_paths st :
  cache_agrees w st →
  cmaps_decompile w font_paths →
  (∀ c, c ∈ cs → report_encodable w c font_paths) →
  ∃ st',
    main_loop w (chars_of cs) font_paths st = (Return tt, st')
    ∧ stdout st' = stdout st ++ concat ((λ c, report w c font_paths) <$> cs)
    ∧ loader_view st' = loader_view (loads (query_calls w cs font_paths) st).
Proof.
  intros Hag Hdec. revert st Hag. induction cs as [|c cs IH]; intros st Hag Henc.
  - exists st. split; [done|]. split; [|done]. simpl. by rewrite app_nil_r.
  - unfold chars_of, query_calls. rewrite !fmap_cons. cbn [main_loop concat].
    unfold mbind, M_bind.
    destruct (find_fonts_for_char_spec w c font_paths st)
      as (st1 & -> & Hout1 & Hv1); [done|done|apply Henc, list_elem_of_here|].
    destruct (IH st1) as (st' & Heq & Hout & Hv).
    { apply (cache_agrees_view w _ _ Hv1). by apply loads_agrees. }
    { intros c' Hc'. by apply Henc, list_elem_of_further. }
    unfold chars_of in Heq. rewrite Heq.
    exists st'. split; [done|]. split.
    + by rewrite Hout, Hout1, <- app_assoc.
    + rewrite loads_app, Hv. by apply loads_view.
Qed.

(** The arguments after one that is not a single character are never
    looked at. *)
Lemma main_loop_stop w cs bad rest font_paths st :
  length bad ≠ 1%nat →
  main_loop w (chars_of cs ++ bad :: rest) font_paths st
  = main_loop w (chars_of cs ++ [bad]) font_paths st
  ∧ (∃ e, (main_loop w (chars_of cs ++ bad :: rest) font_paths st).1 = Raised e)
  ∧ (cache_agrees w st →
     cmaps_decompile w font_paths →
     (∀ c, c ∈ cs → report_encodable w c font_paths) →
     (main_loop w (chars_of cs ++ bad :: rest) font_paths st).1 = Raised TypeError).
Proof.
  intros Hlen. revert st. induction cs as [|c cs IH]; intros st.
  - cbn [chars_of fmap list_fmap app main_loop]. unfold mbind, M_bind.
    rewrite find_fonts_for_char_raises by done.
    split; [done|]. split; [by exists TypeError|done].
  - unfold chars_of. rewrite fmap_cons, <- !app_comm_cons. cbn [main_loop].
    unfold mbind, M_bind. fold (chars_of cs).
    split; [|split].
    + destruct (find_fonts_for_char_any w [c] font_paths st)
        as (out1 & st1 & pre1 & lines1 & -> & _).
      destruct out1 as [[]|e|code]; [|done|done]. apply IH.
    + destruct (find_fonts_for_char_any w [c] font_paths st)
        as (out1 & st1 & pre1 & lines1 & -> & _ & _ & _ & _ & Hx & _).
      destruct out1 as [[]|e|code]; [apply IH|by exists e|by destruct (Hx code)].
    + intros Hag Hdec Henc.
      destruct (find_fonts_for_char_spec w c font_paths st)
        as (st1 & -> & _ & Hv1); [done|done|apply Henc, list_elem_of_here|].
      apply IH; [|done|].
      * apply (cache_agrees_view w _ _ Hv1). by apply loads_agrees.
      * intros c' Hc'. by apply Henc, list_elem_of_further.
Qed.

(** X13: as soon as there is an argument, [main] walks the default
    font directory, once, and no other directory, whether the
    arguments are then accepted or not, and its first two lines of
    output are those of the discovery. *)
Theorem main_discovers_once (w : world) (argv : list pystr) (st : state) :
  drop 1 argv ≠ [] →
  walked (main w argv st).2 = walked st ++ [py "/usr/share/fonts/"]
  ∧ ∃ out, stdout (main w argv st).2 = stdout st ++ discovery_lines w ++ out.
Proof.
  intros Hne. destruct argv as [|prog [|char rest]]; [done|done|].
  rewrite main_args.
  destruct (main_loop_any w (char :: rest) (discovered w) (after_discovery w st))
    as (out & st' & j & pre & lines & -> & Hw & Ho & _).
  cbn [snd]. split; [by rewrite Hw|]. exists lines. rewrite Ho.
  unfold after_discovery. cbn [stdout]. by rewrite <- app_assoc.
Qed.

(** X14: [main] handles its arguments in order and looks at none after
    the first one that is not a single character: the arguments after
    it change nothing, neither in the outcome nor in the output nor in
    what is loaded, and the run ends with an exception; when the cache
    agrees with the files, the cmap tables decompile and stdout can
    encode the reports of the characters before it, that exception is
    [TypeError]. *)
Theorem main_stops_at_bad_argument (w : world) (prog : pystr) (cs : list Z)
    (bad : pystr) (rest : list pystr) (st : state) :
  length bad ≠ 1%nat →
  main w (prog :: chars_of cs ++ bad :: rest) st
  = main w (prog :: chars_of cs ++ [bad]) st
  ∧ (∃ e, (main w (prog :: chars_of cs ++ bad :: rest) st).1 = Raised e)
  ∧ (cache_agrees w st →
     cmaps_decompile w (discovered w) →
     (∀ c, c ∈ cs → report_encodable w c (discovered w)) →
     (main w (prog :: chars_of cs ++ bad :: rest) st).1 = Raised TypeError).
Proof.
  intros Hlen.
  destruct (main_loop_stop w cs bad rest (discovered w) (after_discovery w st) Hlen)
    as (Heq & Hr & Ht).
  destruct cs as [|c cs].
  - change (chars_of [] ++ bad :: rest) with (bad :: rest) in *.
    change (chars_of [] ++ [bad]) with [bad] in *.
    by rewrite !main_args.
  - change (chars_of (c :: cs) ++ bad :: rest)
      with ([c] :: (chars_of cs ++ bad :: rest)) in *.
    change (chars_of (c :: cs) ++ [bad]) with ([c] :: (chars_of cs ++ [bad])) in *.
    by rewrite !main_args.
Qed.

(** X15: the whole output of a run: with single characters as
    arguments, at least one, a cache that agrees with the files (the
    empty one, say), font files whose cmap tables decompile and
    reports that stdout can encode, [main] returns normally and prints
    the two discovery lines and then, for each character in the order
    of the arguments, its report over the discovered paths. *)
Theorem main_output (w : world) (prog : pystr) (cs : list Z) (st : state) :
  cs ≠ [] →
  cache_agrees w st →
  cmaps_decompile w (discovered w) →
  (∀ c, c ∈ cs → report_encodable w c (discovered w)) →
  ∃ st', main w (prog :: chars_of cs) st = (Return tt, st')
         ∧ stdout st'
           = stdout st ++ discovery_lines w
             ++ concat ((λ c, report w c (discovered w)) <$> cs).
Proof.
  intros Hne Hag Hdec Henc.
  destruct (main_loop_spec w cs (discovered w) (after_discovery w st))
    as (st' & Heq & Hout & _); [done|done|done|].
  exists st'. split.
  - destruct cs as [|c cs]; [done|].
    change (chars_of (c :: cs)) with ([c] :: chars_of cs) in *.
    by rewrite main_args.
  - rewrite Hout. unfold after_discovery. cbn [stdout].
    by rewrite <- app_assoc.
Qed.

Lemma rounds_paths w j font_paths pre q :
  pre `prefix_of` font_paths →
  q ∈ (concat (replicate j (scan_calls w font_paths)) ++ scan_calls w pre).*2 →
  q ∈ font_paths.
Proof.
  intros [k ->]. induction j as [|j IH]; cbn [replicate concat].
  - cbn [app]. rewrite scan_calls_paths. intros Hq. apply elem_of_app. by left.
  - rewrite <- app_assoc, fmap_app, scan_calls_paths.
    intros [Hq|Hq]%elem_of_app; [done|]. by apply IH.
Qed.

(** A scan of distinct paths of which none is cached reads them all. *)
Lemma scan_cold w font_paths st :
  NoDup font_paths →
  (∀ p, p ∈ font_paths → p ∉ (cache st).*1) →
  reads (loads (scan_calls w font_paths) st) = reads st ++ font_paths.
Proof.
  revert st. induction font_paths as [|p rest IH]; intros st Hnd Hcold.
  - simpl. by rewrite app_nil_r.
  - apply NoDup_cons in Hnd as [Hp Hnd]. cbn [scan_calls fmap list_fmap loads].
    fold (scan_calls w rest). rewrite IH; [|done|].
    + rewrite load_font_reads.
      assert (cache_get p (cache st) = None) as ->.
      { apply cache_get_None, Hcold, list_elem_of_here. }
      by rewrite <- app_assoc.
    + intros q Hq Hk. apply load_font_keys in Hk as [->|Hk]; [done|].
      by apply (Hcold q); [apply list_elem_of_further|].
Qed.

(** From an empty cache that can hold all the paths, completed scans
    and a further partial one read each path they reach once. *)
Lemma rounds_cold w j pre font_paths st :
  cache st = [] →
  NoDup font_paths →
  (length font_paths ≤ 512)%nat →
  pre `prefix_of` font_paths →
  reads (loads (concat (replicate j (scan_calls w font_paths))
                ++ scan_calls w pre) st)
  = reads st ++ match j with O => pre | S _ => font_paths end.
Proof.
  intros Hc Hnd Hlen Hp.
  assert (cache_wf st) as Hwf.
  { unfold cache_wf. rewrite Hc. split; [constructor|simpl; lia]. }
  assert (∀ p, p ∈ font_paths → p ∉ (cache st).*1) as Hcold.
  { intros p _. rewrite Hc. apply not_elem_of_nil. }
  destruct j as [|j].
  - cbn [replicate concat app]. apply scan_cold.
    + apply (sublist_NoDup pre font_paths); [done|by apply prefix_sublist].
    + intros p Hin. apply Hcold. destruct Hp as [k ->]. apply elem_of_app. by left.
  - destruct (loads_read_once_aux
                (concat (replicate (S j) (scan_calls w font_paths))
                 ++ scan_calls w pre) st Hwf) as (l & Hl & Hndl & _).
    { etransitivity; [|exact Hlen].
      rewrite <- (size_list_to_set (C:=gset pystr) font_paths Hnd).
      apply subseteq_size. intros q Hq. apply elem_of_list_to_set.
      apply elem_of_list_to_set in Hq. by apply rounds_paths in Hq. }
    revert Hl. cbn [replicate concat]. rewrite <- app_assoc, loads_app.
    destruct (loads_reads_sublist
                (concat (replicate j (scan_calls w font_paths)) ++ scan_calls w pre)
                (loads (scan_calls w font_paths) st)) as (l2 & -> & Hsub2).
    rewrite scan_cold; [|done|done].
    rewrite <- app_assoc. intros Hl. apply app_inv_head in Hl. subst l.
    destruct l2 as [|q l2]; [by rewrite app_nil_r|].
    exfalso. apply NoDup_app in Hndl as (_ & Hdisj & _).
    apply (Hdisj q); [|apply list_elem_of_here].
    apply (rounds_paths w j font_paths pre); [done|].
    eapply elem_of_sublist; [|exact Hsub2]. apply list_elem_of_here.
Qed.

(** X16: with at most 512 discovered font files, all distinct, and an
    empty cache at the start, a run with any number of single
    characters reads no font file twice: the files it reads are the
    first discovered ones, in the order of discovery, and all of them
    when the run returns; the queries after the first are served from
    the cache. *)
Theorem main_reads_once (w : world) (prog : pystr) (cs : list Z) (st : state) :
  cs ≠ [] →
  cache st = [] →
  NoDup (discovered w) →
  (length (discovered w) ≤ 512)%nat →
  ∃ l, reads (main w (prog :: chars_of cs) st).2 = reads st ++ l
       ∧ l `prefix_of` discovered w
       ∧ ((main w (prog :: chars_of cs) st).1 = Return tt → l = discovered w).
Proof.
  intros Hne Hc Hnd Hlen. destruct cs as [|c cs]; [done|].
  destruct (main_loop_any w (chars_of (c :: cs)) (discovered w) (after_discovery w st))
    as (out & st' & j & pre & lines & Heq & _ & _ & Hp & _ & Hv & _ & Hr).
  assert (main w (prog :: chars_of (c :: cs)) st = (out, st')) as ->.
  { rewrite <- Heq. exact (main_args w prog [c] (chars_of cs) st). }
  unfold loader_view in Hv. injection Hv as _ Hreads _. cbn [fst snd].
  rewrite Hreads, (rounds_cold w j pre (discovered w)) by done.
  cbn [after_discovery reads].
  eexists. split; [done|]. split.
  - by destruct j.
  - intros Hout. by destruct (Hr Hout) as [-> _].
Qed.

End driver_more.

(** * When the cache is too small *)

Section thrashing.
Context `{FontLib}.

Lemma keys_before_sublist p c : keys_before p c `sublist_of` c.*1.
Proof.
  induction c as [|[k v] rest IH]; simpl; [done|].
  destruct (decide (k = p)); [apply sublist_nil_l|by apply sublist_skip].
Qed.

Lemma keys_before_length p c :
  p ∈ c.*1 → (length (keys_before p c) < length c)%nat.
Proof.
  induction c as [|[k v] rest IH]; simpl.
  - intros Hp. by apply elem_of_nil in Hp.
  - destruct (decide (k = p)) as [->|Hne]; simpl; [lia|].
    intros [?|Hp]%elem_of_cons; [done|]. apply IH in Hp. lia.
Qed.

Lemma keys_before_filter p q c :
  q ≠ p →
  keys_before p (filter (λ kv, kv.1 ≠ q) c) = filter (λ k, k ≠ q) (keys_before p c).
Proof.
  intros Hne. induction c as [|[k v] rest IH]; [done|].
  destruct (decide (k = q)) as [->|Hkq].
  - rewrite filter_cons_False by (simpl; intros Hx; by apply Hx).
    simpl. rewrite decide_False by done.
    rewrite filter_cons_False by (intros Hx; by apply Hx). done.
  - rewrite filter_cons_True by done. simpl.
    destruct (decide (k = p)); [done|].
    rewrite filter_cons_True by done. by rewrite IH.
Qed.

Lemma keys_before_removelast p (c : list (pystr * option obj)) :
  p ∈ (removelast c).*1 → keys_before p (removelast c) = keys_before p c.
Proof.
  induction c as [|[k v] rest IH].
  - intros Hp. by apply elem_of_nil in Hp.
  - destruct rest as [|x rest'].
    + intros Hp. by apply elem_of_nil in Hp.
    + change (removelast ((k, v) :: x :: rest')) with ((k, v) :: removelast (x :: rest')).
      rewrite fmap_cons. cbn [keys_before]. intros Hp.
      destruct (decide (k = p)) as [->|Hne]; [done|].
      apply elem_of_cons in Hp as [?|Hp]; [done|]. by rewrite IH.
Qed.

(** A call for another path puts that path before [p]. *)
Lemma all_before_step p D st w q :
  q ≠ p →
  all_before p D st →
  all_before p ({[q]} ∪ D) (load_font w q st).2.
Proof.
  intros Hne [Hwf Hall]. split; [by apply load_font_wf|].
  destruct (cache_get q (cache st)) as [v|] eqn:Hg.
  - rewrite (load_font_hit w q st v Hg).
    change (cache (Return v, set_cache (cache_touch q v (cache st)) st).2)
      with ((q, v) :: filter (λ kv, kv.1 ≠ q) (cache st)).
    rewrite fmap_cons. cbn [keys_before]. rewrite decide_False by done.
    intros [?|Hp]%elem_of_cons; [done|]. apply keys_filter in Hp.
    rewrite keys_before_filter by done.
    intros k [->%elem_of_singleton|Hk]%elem_of_union; [apply list_elem_of_here|].
    destruct (decide (k = q)) as [->|Hkq]; [apply list_elem_of_here|].
    apply list_elem_of_further, list_elem_of_filter. split; [done|by apply Hall].
  - destruct (load_font_miss w q st Hg) as (r & st1 & _ & _ & _ & _ & _ & ->).
    change (cache (Return r, set_cache (cache_put q r (cache st)) st1).2)
      with (cache_put q r (cache st)).
    unfold cache_put. rewrite fmap_cons. cbn [keys_before].
    rewrite (decide_False (P:=q = p)) by done.
    intros [?|Hp]%elem_of_cons; [done|].
    intros k [->%elem_of_singleton|Hk]%elem_of_union; [apply list_elem_of_here|].
    apply list_elem_of_further. case_decide.
    + rewrite keys_before_removelast by done. apply Hall; [|done].
      eapply keys_sublist; [apply removelast_sublist|done].
    + by apply Hall.
Qed.

Lemma all_before_loads p D calls st :
  p ∉ calls.*2 →
  all_before p D st →
  all_before p (list_to_set (calls.*2) ∪ D) (loads calls st).
Proof.
  revert D st. induction calls as [|[w q] rest IH]; intros D st Hp Hall.
  - destruct Hall as [Hwf Hall]. split; [done|].
    intros Hin k [Hk|Hk]%elem_of_union; [|by apply Hall].
    simpl in Hk. by apply not_elem_of_empty in Hk.
  - rewrite fmap_cons in Hp. apply not_elem_of_cons in Hp as [Hne Hp].
    cbn [loads]. simpl in Hne.
    pose proof (IH ({[q]} ∪ D) (load_font w q st).2 Hp
                  (all_before_step p D st w q ltac:(done) Hall)) as [Hwf' Hall'].
    split; [done|]. intros Hin k Hk. apply Hall'; [done|].
    rewrite fmap_cons in Hk. simpl in Hk.
    apply elem_of_union in Hk as [[Hk|Hk]%elem_of_union|Hk].
    + apply elem_of_union. right. apply elem_of_union. by left.
    + apply elem_of_union. by left.
    + apply elem_of_union. right. apply elem_of_union. by right.
Qed.

(** After [maxsize] or more distinct other paths the entry is gone. *)
Lemma loads_evicts p calls st :
  cache_wf st →
  p ∉ calls.*2 →
  (maxsize ≤ size (list_to_set (C:=gset pystr) (calls.*2)))%nat →
  cache_get p (cache (loads calls st)) = None.
Proof.
  intros Hwf Hp Hsize. apply cache_get_None. intros Hin.
  destruct (all_before_loads p ∅ calls st Hp) as [[Hn Hlen] Hall].
  { split; [done|]. intros _ k Hk. by apply not_elem_of_empty in Hk. }
  pose proof (keys_before_length p _ Hin) as Hlt.
  assert (NoDup (keys_before p (cache (loads calls st)))) as Hnd.
  { eapply sublist_NoDup; [exact Hn|apply keys_before_sublist]. }
  pose proof (NoDup_subseteq_size _ (list_to_set (C:=gset pystr) (calls.*2)) Hnd) as Hle.
  assert (size (list_to_set (C:=gset pystr) (calls.*2))
          ≤ length (keys_before p (cache (loads calls st))))%nat as Hge.
  { rewrite <- (size_list_to_set (C:=gset pystr) _ Hnd). apply subseteq_size.
    intros k Hk. apply elem_of_list_to_set. apply Hall; [done|].
    apply elem_of_union. by left. }
  lia.
Qed.

(** X17: the cache forgets: once 512 or more distinct other paths have
    been loaded since the last call for a path, its entry has been
    evicted, and the next call for it reads the file again. *)
Theorem load_font_evicted (w' : world) (p : pystr) (st : state)
    (calls : list (world * pystr)) :
  cache_wf st →
  p ∉ calls.*2 →
  (512 ≤ size (list_to_set (C:=gset pystr) (calls.*2)))%nat →
  reads (load_font w' p (loads calls st)).2 = reads (loads calls st) ++ [p].
Proof.
  intros Hwf Hp Hsize. rewrite load_font_reads.
  by rewrite (loads_evicts p calls st Hwf Hp Hsize).
Qed.

Lemma scan_calls_app w l1 l2 :
  scan_calls w (l1 ++ l2) = scan_calls w l1 ++ scan_calls w l2.
Proof. unfold scan_calls. apply fmap_app. Qed.

Lemma scan_misses_reads w font_paths st :
  scan_misses w font_paths st →
  reads (loads (scan_calls w font_paths) st) = reads st ++ font_paths.
Proof.
  intros [_ Hm]. revert st Hm.
  induction font_paths as [|p rest IH]; intros st Hm.
  - simpl. by rewrite app_nil_r.
  - cbn [scan_calls fmap list_fmap loads]. fold (scan_calls w rest).
    rewrite IH.
    + rewrite load_font_reads.
      pose proof (Hm [] p rest eq_refl) as Hg. simpl in Hg. rewrite Hg.
      by rewrite <- app_assoc.
    + intros l1 p' l2 ->. exact (Hm (p :: l1) p' l2 eq_refl).
Qed.

Lemma scan_misses_cold w font_paths st :
  cache_wf st →
  NoDup font_paths →
  (∀ p, p ∈ font_paths → p ∉ (cache st).*1) →
  scan_misses w font_paths st.
Proof.
  intros Hwf Hnd Hcold. split; [done|]. intros l1 p l2 ->.
  apply cache_get_None. intros Hk.
  apply loads_keys in Hk as [Hk|Hk].
  - apply (Hcold p); [|done]. apply elem_of_app. right. apply list_elem_of_here.
  - rewrite scan_calls_paths in Hk.
    apply NoDup_app in Hnd as (_ & Hdisj & _).
    apply (Hdisj p Hk). apply list_elem_of_here.
Qed.

(** After one whole scan of more than [maxsize] distinct paths, the
    next scan finds none of them cached. *)
Lemma scan_misses_after w font_paths st :
  cache_wf st →
  NoDup font_paths →
  (maxsize < length font_paths)%nat →
  scan_misses w font_paths (loads (scan_calls w font_paths) st).
Proof.
  intros Hwf Hnd Hlen. split; [by apply loads_wf|]. intros l1 p l2 ->.
  rewrite scan_calls_app. cbn [scan_calls fmap list_fmap].
  fold (scan_calls w l2). rewrite loads_app. cbn [loads]. rewrite <- !loads_app.
  assert (NoDup (l2 ++ l1) ∧ p ∉ l2 ++ l1) as [Hnd' Hp].
  { apply NoDup_app in Hnd as (Hn1 & Hdisj & Hn2).
    apply NoDup_cons in Hn2 as [Hp2 Hn2]. split.
    - apply NoDup_app. split; [done|]. split; [|done].
      intros k Hk2 Hk1. apply (Hdisj k Hk1). by apply list_elem_of_further.
    - intros [Hk|Hk]%elem_of_app; [done|].
      apply (Hdisj p Hk). apply list_elem_of_here. }
  apply loads_evicts.
  - by apply load_font_wf, loads_wf.
  - by rewrite fmap_app, !scan_calls_paths.
  - rewrite fmap_app, !scan_calls_paths, size_list_to_set by done.
    rewrite length_app in *. simpl in Hlen. lia.
Qed.

Lemma scan_misses_prefix w pre font_paths st :
  pre `prefix_of` font_paths →
  scan_misses w font_paths st → scan_misses w pre st.
Proof.
  intros [k ->] [Hwf Hm]. split; [done|]. intros l1 p l2 ->.
  apply (Hm l1 p (l2 ++ k)). by rewrite <- app_assoc.
Qed.

(** Completed scans and a further partial one read every path they
    reach, each time. *)
Lemma rounds_reads w j pre font_paths st :
  NoDup font_paths →
  (maxsize < length font_paths)%nat →
  pre `prefix_of` font_paths →
  scan_misses w font_paths st →
  reads (loads (concat (replicate j (scan_calls w font_paths))
                ++ scan_calls w pre) st)
  = reads st ++ concat (replicate j font_paths) ++ pre.
Proof.
  intros Hnd Hlen Hp. revert st. induction j as [|j IH]; intros st Hm.
  - cbn [replicate concat app]. apply scan_misses_reads.
    by apply (scan_misses_prefix w pre font_paths).
  - cbn [replicate concat]. rewrite <- !app_assoc, loads_app, IH.
    + by rewrite scan_misses_reads, <- app_assoc.
    + apply scan_misses_after; [by destruct Hm|done|done].
Qed.

(** X18: with more than 512 discovered font files, all distinct, the
    cache never serves a query: starting from an empty cache, a run
    reads the font files again for every character, in the order of
    discovery: all of them in each query that is completed, and the
    first ones in a query that an exception stops; a run that returns
    has read all of them once for each character. *)
Theorem main_rereads_all (w : world) (prog : pystr) (cs : list Z) (st : state) :
  cs ≠ [] →
  cache st = [] →
  NoDup (discovered w) →
  (512 < length (discovered w))%nat →
  ∃ j pre,
    reads (main w (prog :: chars_of cs) st).2
    = reads st ++ concat (replicate j (discovered w)) ++ pre
    ∧ pre `prefix_of` discovered w
    ∧ (j ≤ length cs)%nat
    ∧ ((main w (prog :: chars_of cs) st).1 = Return tt
       → j = length cs ∧ pre = []).
Proof.
  intros Hne Hc Hnd Hlen. destruct cs as [|c cs]; [done|].
  destruct (main_loop_any w (chars_of (c :: cs)) (discovered w) (after_discovery w st))
    as (out & st' & j & pre & lines & Heq & _ & _ & Hp & Hj & Hv & _ & Hr).
  assert (main w (prog :: chars_of (c :: cs)) st = (out, st')) as ->.
  { rewrite <- Heq. exact (main_args w prog [c] (chars_of cs) st). }
  unfold chars_of in Hj, Hr. rewrite length_fmap in Hj, Hr.
  exists j, pre. cbn [fst snd].
  unfold loader_view in Hv. injection Hv as _ Hreads _.
  rewrite Hreads, rounds_reads; [done|done|done|done|].
  apply scan_misses_cold; [|done|].
  - unfold cache_wf, after_discovery. cbn [cache]. rewrite Hc.
    split; [constructor|simpl; lia].
  - intros p _. cbn [after_discovery cache]. rewrite Hc. apply not_elem_of_nil.
Qed.

End thrashing.

(** * The further properties on concrete fonts and files *)

Lemma char_in_font_not_char_cases_witness :
  char_in_font (py "ab") font_two = Raise TypeError
  ∧ char_in_font [] font_no_cmap = Ok false.
Proof.
  split.
  - apply (char_in_font_not_char_cases (py "ab") font_two); [simpl; lia|].
    eexists _, (CmapSubtable.mk 0 3 {[ 0x41 := 36; 0x20AC := 7 ]}).
    split; [reflexivity|]. split; [|reflexivity].
    apply list_elem_of_further, list_elem_of_here.
  - apply (char_in_font_not_char_cases [] font_no_cmap); [simpl; lia|].
    intros (tables & cm & Ht & _). discriminate.
Defined.

Lemma format_04X_value_witness :
  hex_value (format_04X 0x1F600) = 0x1F600
  ∧ Forall is_upper_hex (format_04X 0x1F600)
  ∧ (4 ≤ length (format_04X 0x1F600))%nat
  ∧ (0x1F600 < 65536 → length (format_04X 0x1F600) = 4%nat).
Proof. apply format_04X_value. lia. Defined.

Lemma loads_cache_bounded_witness :
  NoDup (cache (loads (scan_calls world_A [py "/a.ttf"; py "/b.ttf"; py "/a.ttf"])
                  init_state)).*1
  ∧ (length (cache (loads (scan_calls world_A [py "/a.ttf"; py "/b.ttf"; py "/a.ttf"])
                      init_state)) ≤ 512)%nat
  ∧ (∀ k, k ∈ (cache (loads (scan_calls world_A
                                 [py "/a.ttf"; py "/b.ttf"; py "/a.ttf"])
                         init_state)).*1 →
          k ∈ (cache init_state).*1
          ∨ k ∈ (scan_calls world_A [py "/a.ttf"; py "/b.ttf"; py "/a.ttf"]).*2).
Proof. apply loads_cache_bounded. apply cache_wf_init. Defined.

(** The object made for [/a.ttf] is returned again after other loads,
    although the file no longer parses. *)
Lemma load_font_entry_kept_witness :
  (load_font world_bad (py "/a.ttf")
     (loads [(world_A, py "/b.ttf"); (world_A, py "/c.ttf")]
        (load_font world_A (py "/a.ttf") init_state).2)).1
  = (load_font world_A (py "/a.ttf") init_state).1
  ∧ reads (load_font world_bad (py "/a.ttf")
             (loads [(world_A, py "/b.ttf"); (world_A, py "/c.ttf")]
                (load_font world_A (py "/a.ttf") init_state).2)).2
    = reads (loads [(world_A, py "/b.ttf"); (world_A, py "/c.ttf")]
               (load_font world_A (py "/a.ttf") init_state).2).
Proof.
  apply (load_font_entry_kept world_A world_bad (py "/a.ttf") init_state
           [(world_A, py "/b.ttf"); (world_A, py "/c.ttf")]).
  - apply cache_wf_init.
  - eapply Nat.le_lt_trans; [apply other_paths_size_le|]. simpl. unfold maxsize. lia.
Defined.

Lemma size_paths_le (l : list pystr) :
  (size (list_to_set (C:=gset pystr) l) ≤ length l)%nat.
Proof.
  change (size (list_to_set (C:=gset pystr) l))
    with (length (elements (list_to_set (C:=gset pystr) l))).
  apply submseteq_length, NoDup_submseteq; [apply NoDup_elements|].
  intros q Hq. apply elem_of_elements in Hq. by apply elem_of_list_to_set in Hq.
Qed.

Lemma loads_read_once_witness :
  ∃ l, reads (loads (scan_calls world_A [py "/a.ttf"; py "/b.ttf"; py "/a.ttf";
                                           py "/b.ttf"]) init_state)
       = reads init_state ++ l
       ∧ NoDup l
       ∧ l `sublist_of` (scan_calls world_A [py "/a.ttf"; py "/b.ttf"; py "/a.ttf";
                                             py "/b.ttf"]).*2.
Proof.
  apply loads_read_once.
  - apply cache_wf_init.
  - etransitivity; [apply size_paths_le|]. simpl. unfold maxsize. lia.
Defined.

(** In [world_A] every file that opens has a cmap table that
    decompiles, and a stdout in UTF-8 encodes the reports for these
    characters. *)
Lemma world_A_decompiles font_paths : cmaps_decompile world_A font_paths.
Proof.
  intros p e font _. unfold parsed, world_A. cbn [TTFont_open].
  by destruct (decide (p = py "/a.ttf")).
Qed.

Lemma report_encodable_bool `{FontLib} w c font_paths :
  forallb (encodable w) (report w c font_paths) = true →
  report_encodable w c font_paths.
Proof.
  intros Hb. apply Forall_forall. intros text Hin.
  apply (proj1 (forallb_forall _ _) Hb). by apply list_elem_of_In.
Qed.

Lemma world_A_reports :
  Forall (λ c, report_encodable world_A c (discovered world_A))
    [0x41; 0x42; 0x20AC; 0xE000].
Proof.
  repeat (constructor; [apply report_encodable_bool; vm_compute; reflexivity|]).
  constructor.
Qed.

Lemma world_A_report c :
  c ∈ [0x41; 0x42; 0x20AC; 0xE000] →
  report_encodable world_A c [py "/a.ttf"; py "/b.ttf"].
Proof. intros Hc. exact (proj1 (Forall_forall _ _) world_A_reports c Hc). Qed.

(** The report for U+0041 over [/a.ttf], which has it, and [/b.ttf],
    which does not parse; and the report for U+E000, which no font has
    and which has no name. *)
Lemma find_fonts_for_char_report_witness :
  (∃ st', find_fonts_for_char world_A [0x41] [py "/a.ttf"; py "/b.ttf"] init_state
          = (Return tt, st')
          ∧ stdout st'
            = [[10] ++ py "Searching for: A (U+0041 LATIN CAPITAL LETTER A)";
               replicate 70 45;
               py "  Foo " ++ [0x2192] ++ py " /a.ttf"])
  ∧ (∃ st', find_fonts_for_char world_A [0xE000] [py "/a.ttf"; py "/b.ttf"] init_state
            = (Return tt, st')
            ∧ stdout st'
              = [[10] ++ py "Searching for: " ++ [0xE000] ++ py " (U+E000)";
                 replicate 70 45;
                 py "  No fonts found containing this character."]).
Proof.
  split.
  - destruct (find_fonts_for_char_report world_A 0x41 [py "/a.ttf"; py "/b.ttf"]
                init_state (cache_agrees_init world_A) (world_A_decompiles _))
      as [(st' & Heq & Hout & _) _].
    { apply world_A_report. apply list_elem_of_here. }
    exists st'. split; [exact Heq|]. rewrite Hout. reflexivity.
  - destruct (find_fonts_for_char_report world_A 0xE000 [py "/a.ttf"; py "/b.ttf"]
                init_state (cache_agrees_init world_A) (world_A_decompiles _))
      as [(st' & Heq & Hout & _) _].
    { apply world_A_report. do 3 apply list_elem_of_further. apply list_elem_of_here. }
    exists st'. split; [exact Heq|]. rewrite Hout. reflexivity.
Defined.

Lemma find_fonts_for_char_not_char_witness :
  find_fonts_for_char world_A (py "ab") [py "/a.ttf"] init_state
  = (Raised TypeError, init_state).
Proof. apply find_fonts_for_char_not_char. simpl. lia. Defined.

Lemma main_discovers_once_witness :
  walked (main world_A [py "char2fonts.py"; py "ab"] init_state).2
  = walked init_state ++ [py "/usr/share/fonts/"]
  ∧ ∃ out, stdout (main world_A [py "char2fonts.py"; py "ab"] init_state).2
           = stdout init_state ++ discovery_lines world_A ++ out.
Proof. apply main_discovers_once. done. Defined.

Lemma main_stops_at_bad_argument_witness :
  main world_A (py "char2fonts.py" :: chars_of [0x41] ++ py "ab" :: [[0x42]])
    init_state
  = main world_A (py "char2fonts.py" :: chars_of [0x41] ++ [py "ab"]) init_state
  ∧ (main world_A (py "char2fonts.py" :: chars_of [0x41] ++ py "ab" :: [[0x42]])
       init_state).1
    = Raised TypeError.
Proof.
  destruct (main_stops_at_bad_argument world_A (py "char2fonts.py") [0x41]
              (py "ab") [[0x42]] init_state) as (Heq & _ & Ht); [simpl; lia|].
  split; [exact Heq|]. apply Ht.
  - apply cache_agrees_init.
  - apply world_A_decompiles.
  - intros c Hc. apply world_A_report.
    change (c ∈ [0x41] ++ [0x42; 0x20AC; 0xE000]). apply elem_of_app. by left.
Defined.

(** The output of a run for U+0041 and U+0042. *)
Lemma main_output_witness :
  ∃ st', main world_A (py "char2fonts.py" :: chars_of [0x41; 0x42]) init_state
         = (Return tt, st')
         ∧ stdout st'
           = [py "Discovering fonts...";
              py "Found 2 fonts." ++ [10];
              [10] ++ py "Searching for: A (U+0041 LATIN CAPITAL LETTER A)";
              replicate 70 45;
              py "  Foo " ++ [0x2192] ++ py " /a.ttf";
              [10] ++ py "Searching for: B (U+0042 LATIN CAPITAL LETTER B)";
              replicate 70 45;
              py "  No fonts found containing this character."].
Proof.
  destruct (main_output world_A (py "char2fonts.py") [0x41; 0x42] init_state)
    as (st' & Heq & Hout).
  - done.
  - apply cache_agrees_init.
  - apply world_A_decompiles.
  - intros c Hc. apply world_A_report.
    change (c ∈ [0x41; 0x42] ++ [0x20AC; 0xE000]). apply elem_of_app. by left.
  - exists st'. split; [exact Heq|]. rewrite Hout. reflexivity.
Defined.

Lemma main_reads_once_witness :
  reads (main world_A (py "char2fonts.py" :: chars_of [0x41; 0x42; 0x20AC])
           init_state).2
  = [py "/a.ttf"; py "/b.ttf"].
Proof.
  destruct (main_reads_once world_A (py "char2fonts.py") [0x41; 0x42; 0x20AC] init_state)
    as (l & Hl & _ & Hret).
  - done.
  - reflexivity.
  - apply (bool_decide_unpack (NoDup (discovered world_A))). vm_compute. reflexivity.
  - simpl. lia.
  - rewrite Hl, Hret; [reflexivity|]. vm_compute. reflexivity.
Defined.

Lemma many_calls_distinct :
  NoDup (many_calls.*2) ∧ length (many_calls.*2) = 512%nat.
Proof.
  split.
  - apply (bool_decide_unpack (NoDup (many_calls.*2))). vm_compute. reflexivity.
  - vm_compute. reflexivity.
Qed.

Lemma load_font_evicted_witness :
  reads (load_font world_A (py "/a.ttf")
           (loads many_calls (load_font world_A (py "/a.ttf") init_state).2)).2
  = reads (loads many_calls (load_font world_A (py "/a.ttf") init_state).2)
    ++ [py "/a.ttf"].
Proof.
  apply load_font_evicted.
  - apply load_font_wf, cache_wf_init.
  - apply (bool_decide_unpack (py "/a.ttf" ∉ many_calls.*2)). vm_compute. reflexivity.
  - destruct many_calls_distinct as [Hnd Hlen].
    rewrite size_list_to_set by exact Hnd. rewrite Hlen. lia.
Defined.

Lemma world_many_distinct :
  NoDup (discovered world_many) ∧ length (discovered world_many) = 513%nat.
Proof.
  split.
  - apply (bool_decide_unpack (NoDup (discovered world_many))). vm_compute. reflexivity.
  - vm_compute. reflexivity.
Qed.

Lemma main_rereads_all_witness :
  reads (main world_many (py "char2fonts.py" :: chars_of [0x41; 0x42]) init_state).2
  = reads init_state ++ discovered world_many ++ discovered world_many.
Proof.
  destruct world_many_distinct as [Hnd Hlen].
  assert (∀ D : list pystr, concat (replicate 2 D) ++ [] = D ++ D) as Hid.
  { intros D. cbn [replicate concat]. by rewrite !app_nil_r. }
  destruct (main_rereads_all world_many (py "char2fonts.py") [0x41; 0x42] init_state)
    as (j & pre & Hr & _ & _ & Hret).
  - done.
  - reflexivity.
  - exact Hnd.
  - rewrite Hlen. lia.
  - destruct Hret as [-> ->]; [vm_compute; reflexivity|].
    rewrite Hr. cbn [length]. rewrite Hid. reflexivity.
Defined.

(** ** Runs that an exception ends *)

(** The cmap table of [/c.ttf] does not decompile: the query for
    U+0041 prints its heading and the rule and ends with the error of
    the table, before the font [/a.ttf], which has the character, is
    looked at. *)
Example main_damaged_cmap :
  ∃ st', main world_C [py "char2fonts.py"; [0x41]] init_state
         = (Raised TTLibError, st')
         ∧ stdout st'
           = [py "Discovering fonts...";
              py "Found 2 fonts." ++ [10];
              [10] ++ py "Searching for: A (U+0041 LATIN CAPITAL LETTER A)";
              replicate 70 45]
         ∧ reads st' = [py "/c.ttf"].
Proof. eexists. split; [vm_compute; reflexivity|]. split; reflexivity. Qed.

(** A lone surrogate as argument: stdout in UTF-8 cannot encode the
    heading, and the run ends after the discovery, before any font is
    loaded. *)
Example main_surrogate_argument :
  ∃ st', main world_A [py "char2fonts.py"; [0xD800]] init_state
         = (Raised UnicodeEncodeError, st')
         ∧ stdout st' = [py "Discovering fonts..."; py "Found 2 fonts." ++ [10]]
         ∧ reads st' = [].
Proof. eexists. split; [vm_compute; reflexivity|]. split; reflexivity. Qed.
